(** * PhySO: the reinforcement loss of [physo/learn/loss.py]

    A shallow embedding of [safe_cross_entropy] and [loss_func] and the
    properties of the loss they compute.

    Tensors are modelled as a shape together with an index function, with
    numpy/torch broadcasting written out and a failed broadcast returned as
    an exception.  Scalars of [loss_func] are real numbers (the data model of
    the loss is real-valued): rounding, overflow and the special values of
    IEEE arithmetic are outside that model.  [safe_cross_entropy] is generic
    in its scalars, and is also instantiated on reals extended with the two
    infinities and NaN, where its guard against [0 * -inf] can be stated. *)

From Stdlib Require Import List ZArith Bool Arith Factorial Lia.
From Stdlib Require Import Reals Lra.
Import ListNotations.

Set Implicit Arguments.

(** ** Exceptions *)

(** What the Python code can raise on the shapes of its arguments: a failed
    broadcast (numpy's ValueError, torch's RuntimeError), a reduction or
    normalisation axis outside the rank (IndexError), and a failed tuple
    unpacking of [ideal_probs_train.shape] (ValueError). *)
Inductive exn : Type :=
| ShapeMismatch
| DimOutOfRange
| UnpackError.

Inductive result (A : Type) : Type :=
| Ok (a : A)
| Raise (e : exn).

Arguments Ok {A} a.
Arguments Raise {A} e.

Definition bind {A B : Type} (m : result A) (k : A -> result B) : result B :=
  match m with
  | Ok a => k a
  | Raise e => Raise e
  end.

Notation "x <- m ;; k" := (bind m (fun x => k))
  (at level 61, m at next level, right associativity).

(** ** Scalars *)

(** The operations [safe_cross_entropy] needs of its element type. *)
Class Scalar (A : Type) : Type := {
  szero : A;
  sone : A;
  sadd : A -> A -> A;
  smul : A -> A -> A;
  sopp : A -> A;
  seqb : A -> A -> bool
}.

Definition Reqb (x y : R) : bool :=
  if Req_dec_T x y then true else false.

#[export] Instance R_Scalar : Scalar R := {
  szero := 0%R;
  sone := 1%R;
  sadd := Rplus;
  smul := Rmult;
  sopp := Ropp;
  seqb := Reqb
}.

(** Reals extended with the infinities and NaN, with the arithmetic of IEEE
    754 on them (no rounding, one zero). *)
Inductive xreal : Type :=
| Fin (r : R)
| PInf
| NInf
| NaN.

Definition xadd (x y : xreal) : xreal :=
  match x, y with
  | NaN, _ | _, NaN => NaN
  | Fin a, Fin b => Fin (a + b)
  | PInf, NInf | NInf, PInf => NaN
  | PInf, _ | _, PInf => PInf
  | NInf, _ | _, NInf => NInf
  end.

Definition xopp (x : xreal) : xreal :=
  match x with
  | Fin a => Fin (- a)
  | PInf => NInf
  | NInf => PInf
  | NaN => NaN
  end.

(** [inf * r] for a finite [r]: NaN at zero, else the sign decides. *)
Definition xscale_inf (pos : bool) (r : R) : xreal :=
  if Req_dec_T r 0 then NaN
  else if Rlt_dec 0 r then (if pos then PInf else NInf)
       else (if pos then NInf else PInf).

Definition xmul (x y : xreal) : xreal :=
  match x, y with
  | NaN, _ | _, NaN => NaN
  | Fin a, Fin b => Fin (a * b)
  | Fin a, PInf | PInf, Fin a => xscale_inf true a
  | Fin a, NInf | NInf, Fin a => xscale_inf false a
  | PInf, PInf | NInf, NInf => PInf
  | PInf, NInf | NInf, PInf => NInf
  end.

Definition xeqb (x y : xreal) : bool :=
  match x, y with
  | Fin a, Fin b => Reqb a b
  | PInf, PInf | NInf, NInf => true
  | _, _ => false
  end.

#[export] Instance xreal_Scalar : Scalar xreal := {
  szero := Fin 0;
  sone := Fin 1;
  sadd := xadd;
  smul := xmul;
  sopp := xopp;
  seqb := xeqb
}.

(** [sum_n n f] is [f 0 + ... + f (n-1)], the reduction of [torch.sum] along
    one axis of size [n]. *)
Fixpoint sum_n {A : Type} `{Scalar A} (n : nat) (f : nat -> A) : A :=
  match n with
  | O => szero
  | S k => sadd (sum_n k f) (f k)
  end.

(** ** Tensors *)

Record tensor (A : Type) : Type := mkTensor {
  shape : list nat;
  get : list nat -> A
}.

Arguments mkTensor {A} shape get.

Definition tmap {A B : Type} (f : A -> B) (x : tensor A) : tensor B :=
  mkTensor (shape x) (fun idx => f (get x idx)).

Definition rank {A : Type} (x : tensor A) : nat := length (shape x).

Fixpoint map2 {A B C : Type} (f : A -> B -> C) (l1 : list A) (l2 : list B)
  : list C :=
  match l1, l2 with
  | a :: l1', b :: l2' => f a b :: map2 f l1' l2'
  | _, _ => []
  end.

(** [in_range idx s]: [idx] is a valid index of a tensor of shape [s]. *)
Fixpoint in_range (idx s : list nat) : Prop :=
  match idx, s with
  | [], [] => True
  | i :: idx', d :: s' => i < d /\ in_range idx' s'
  | _, _ => False
  end.

(** *** Broadcasting *)

(** Two sizes of one axis are compatible when equal or when one is 1. *)
Definition bdim (a b : nat) : result nat :=
  if a =? b then Ok a
  else if a =? 1 then Ok b
  else if b =? 1 then Ok a
  else Raise ShapeMismatch.

(** Shapes are aligned on their last axis: the recursion runs on the
    reversed shapes, a missing leading axis counting as 1. *)
Fixpoint broadcast_rev (s1 s2 : list nat) : result (list nat) :=
  match s1, s2 with
  | [], _ => Ok s2
  | _, [] => Ok s1
  | a :: s1', b :: s2' =>
      d <- bdim a b ;;
      r <- broadcast_rev s1' s2' ;;
      Ok (d :: r)
  end.

Definition broadcast_shapes (s1 s2 : list nat) : result (list nat) :=
  r <- broadcast_rev (rev s1) (rev s2) ;;
  Ok (rev r).

(** The index of an operand of shape [s] under an index [idx] of the
    broadcast result: leading axes the operand lacks are dropped, and an
    axis of size 1 is read at 0. *)
Definition bindex (s idx : list nat) : list nat :=
  map2 (fun d i => if d =? 1 then 0 else i) s
       (skipn (length idx - length s) idx).

Definition bmap2 {A B C : Type} (f : A -> B -> C) (x : tensor A) (y : tensor B)
  : result (tensor C) :=
  s <- broadcast_shapes (shape x) (shape y) ;;
  Ok (mkTensor s (fun idx =>
        f (get x (bindex (shape x) idx)) (get y (bindex (shape y) idx)))).

(** *** Reductions and axes *)

(** A negative axis counts from the end. *)
Definition normalize_dim (rk : nat) (dim : Z) : result nat :=
  let r := Z.of_nat rk in
  if ((dim <? - r) || (r <=? dim))%Z then Raise DimOutOfRange
  else Ok (Z.to_nat (if (dim <? 0)%Z then (dim + r)%Z else dim)).

Definition insert_at (d k : nat) (idx : list nat) : list nat :=
  firstn d idx ++ k :: skipn d idx.

Definition replace_at (d k : nat) (idx : list nat) : list nat :=
  firstn d idx ++ k :: skipn (S d) idx.

Definition remove_at (d : nat) (s : list nat) : list nat :=
  firstn d s ++ skipn (S d) s.

(** [torch.sum(x, dim)]: the axis [dim] is summed out.  A tensor of rank 0
    accepts the axes 0 and -1 and is its own sum. *)
Definition tsum {A : Type} `{Scalar A} (x : tensor A) (dim : Z)
  : result (tensor A) :=
  match shape x with
  | [] => if ((dim =? 0) || (dim =? -1))%Z then Ok x else Raise DimOutOfRange
  | _ =>
      d <- normalize_dim (rank x) dim ;;
      Ok (mkTensor (remove_at d (shape x))
            (fun idx => sum_n (nth d (shape x) 0)
                          (fun k => get x (insert_at d k idx))))
  end.

(** *** torch and numpy operations used by the loss *)

Definition ones_like {A : Type} `{Scalar A} (x : tensor A) : tensor A :=
  mkTensor (shape x) (fun _ => sone).

Definition eq_zero {A : Type} `{Scalar A} (x : tensor A) : tensor bool :=
  tmap (fun a => seqb a szero) x.

(** [torch.where(cond, x, y)], its three arguments broadcast together. *)
Definition where_ {A : Type} (cond : tensor bool) (x y : tensor A)
  : result (tensor A) :=
  xy <- bmap2 pair x y ;;
  bmap2 (fun (c : bool) (p : A * A) => if c then fst p else snd p) cond xy.

Definition tmul {A : Type} `{Scalar A} (x y : tensor A) : result (tensor A) :=
  bmap2 smul x y.

Definition tneg {A : Type} `{Scalar A} (x : tensor A) : tensor A :=
  tmap sopp x.

(** [np.arange(0, n)], as integers. *)
Definition np_arange (n : nat) : tensor Z :=
  mkTensor [n] (fun idx => Z.of_nat (nth 0 idx 0)).

Definition pad_left (n : nat) (s : list nat) : list nat :=
  repeat 1 (n - length s) ++ s.

(** [np.tile(x, reps)]: [x] is repeated [reps] times along each axis, the
    shorter of the shape and [reps] being completed with leading ones. *)
Definition np_tile {A : Type} (x : tensor A) (reps : list nat) : tensor A :=
  let d := Nat.max (rank x) (length reps) in
  let s := pad_left d (shape x) in
  let r := pad_left d reps in
  mkTensor (map2 Nat.mul s r)
    (fun idx => get x (skipn (d - rank x) (map2 Nat.modulo idx s))).

(** [x.transpose()] of numpy: the axes are reversed. *)
Definition transpose {A : Type} (x : tensor A) : tensor A :=
  mkTensor (rev (shape x)) (fun idx => get x (rev idx)).

(** [.astype(float)] on booleans. *)
Definition bool_to_float (b : bool) : R := if b then 1%R else 0%R.

(** The sum of all the elements of a tensor and their number. *)
Fixpoint sum_all (s : list nat) (g : list nat -> R) : R :=
  match s with
  | [] => g []
  | d :: s' => sum_n d (fun k => sum_all s' (fun idx => g (k :: idx)))
  end.

Definition numel (s : list nat) : nat := fold_right Nat.mul 1 s.

(** [torch.mean(x)]. *)
Definition mean (x : tensor R) : R :=
  (sum_all (shape x) (get x) / INR (numel (shape x)))%R.

(** [torch.nn.functional.softmax(x, dim)] and [log_softmax(x, dim)], as
    torch documents them: [exp(x_i) / sum_j exp(x_j)] along the axis, and its
    logarithm. *)
Definition softmax_at (x : tensor R) (d : nat) (idx : list nat) : R :=
  (exp (get x idx)
   / sum_n (nth d (shape x) 0%nat)
       (fun k => exp (get x (replace_at d k idx))))%R.

(** A tensor of rank 0 is normalised along the axes 0 and -1, over its one
    element. *)
Definition softmax (x : tensor R) (dim : Z) : result (tensor R) :=
  match shape x with
  | [] =>
      if ((dim =? 0) || (dim =? -1))%Z
      then Ok (tmap (fun v => (exp v / exp v)%R) x)
      else Raise DimOutOfRange
  | _ =>
      d <- normalize_dim (rank x) dim ;;
      Ok (mkTensor (shape x) (softmax_at x d))
  end.

Definition log_softmax (x : tensor R) (dim : Z) : result (tensor R) :=
  match shape x with
  | [] =>
      if ((dim =? 0) || (dim =? -1))%Z
      then Ok (tmap (fun v => ln (exp v / exp v)%R) x)
      else Raise DimOutOfRange
  | _ =>
      d <- normalize_dim (rank x) dim ;;
      Ok (mkTensor (shape x) (fun idx => ln (softmax_at x d idx)))
  end.

(** ** The source functions *)

(** [safe_cross_entropy(p, logq, dim)] (loss.py, lines 5-7). *)
Definition safe_cross_entropy {A : Type} `{Scalar A}
    (p logq : tensor A) (dim : Z) : result (tensor A) :=
  safe_logq <- where_ (eq_zero p) (ones_like logq) logq ;;
  prod <- tmul p safe_logq ;;
  s <- tsum prod dim ;;
  Ok (tneg s).

Definition unpack3 (s : list nat) : result (nat * nat * nat) :=
  match s with
  | [a; b; c] => Ok (a, b, c)
  | _ => Raise UnpackError
  end.

(** The length mask (lines 44-47), of shape (max_time_step, n_train). *)
Definition mask_length_np (max_time_step n_train : nat) (lengths : tensor Z)
  : result (tensor R) :=
  m <- bmap2 Z.ltb
         (np_tile (np_arange max_time_step) [n_train; 1])
         (transpose (np_tile lengths [max_time_step; 1])) ;;
  Ok (tmap bool_to_float (transpose m)).

(** [gamma_decay ** t for t in range(max_time_step)] (line 52). *)
Definition entropy_gamma_decay (max_time_step : nat) (gamma_decay : R)
  : tensor R :=
  mkTensor [max_time_step] (fun idx => (gamma_decay ^ nth 0%nat idx 0%nat)%R).

(** The entropy mask (lines 53-55). *)
Definition entropy_decay_mask_np (max_time_step n_train : nat)
    (gamma_decay : R) (mask_length_np : tensor R) : result (tensor R) :=
  bmap2 Rmult
    (transpose (np_tile (entropy_gamma_decay max_time_step gamma_decay)
                  [n_train; 1]))
    mask_length_np.

(** The local variables of [loss_func] at its return. *)
Record locals : Type := mkLocals {
  mask_length : tensor R;
  entropy_decay_mask : tensor R;
  probs : tensor R;
  logprobs : tensor R;
  neglogp_per_step : tensor R;
  neglogp : tensor R;
  loss_gp : R;
  entropy_per_step : tensor R;
  entropy : tensor R;
  loss_entropy : R;
  loss : R
}.

(** The body of [loss_func] (lines 38-81). *)
Definition loss_func_body
    (logits_train ideal_probs_train R_train : tensor R) (baseline : R)
    (lengths : tensor Z) (gamma_decay entropy_weight : R) : result locals :=
  shp <- unpack3 (shape ideal_probs_train) ;;
  let '(max_time_step, n_train, n_choices) := shp in
  mask_length <- mask_length_np max_time_step n_train lengths ;;
  entropy_decay_mask <-
    entropy_decay_mask_np max_time_step n_train gamma_decay mask_length ;;
  probs <- softmax logits_train 2 ;;
  logprobs <- log_softmax logits_train 2 ;;
  neglogp_per_step <- safe_cross_entropy ideal_probs_train logprobs 2 ;;
  neglogp_prod <- tmul neglogp_per_step mask_length ;;
  neglogp <- tsum neglogp_prod 0 ;;
  gp_prod <- tmul (tmap (fun r => (r - baseline)%R) R_train) neglogp ;;
  let loss_gp := mean gp_prod in
  entropy_per_step <- safe_cross_entropy probs logprobs 2 ;;
  entropy_prod <- tmul entropy_per_step entropy_decay_mask ;;
  entropy <- tsum entropy_prod 0 ;;
  let loss_entropy := (- entropy_weight * mean entropy)%R in
  let loss := (loss_gp + loss_entropy)%R in
  Ok (mkLocals mask_length entropy_decay_mask probs logprobs
        neglogp_per_step neglogp loss_gp entropy_per_step entropy
        loss_entropy loss).

(** [loss_func] (lines 10-83). *)
Definition loss_func
    (logits_train ideal_probs_train R_train : tensor R) (baseline : R)
    (lengths : tensor Z) (gamma_decay entropy_weight : R) : result R :=
  l <- loss_func_body logits_train ideal_probs_train R_train baseline
         lengths gamma_decay entropy_weight ;;
  Ok (loss l).

(** ** The loss as the specification words it *)

(** The formulas of the loss, entry by entry, over the indices [t] (time
    step), [n] (sample) and [c] (choice) of inputs of shape (T, N, C). *)
Section SpecFormulas.

Variables logits_train ideal_probs_train R_train : tensor R.
Variable baseline : R.
Variable lengths : tensor Z.
Variables gamma_decay entropy_weight : R.
Variables T N C : nat.

Local Open Scope R_scope.

Definition spec_length_mask (t n : nat) : R :=
  if (Z.of_nat t <? get lengths [n])%Z then 1 else 0.

Definition spec_entropy_decay_mask (t n : nat) : R :=
  gamma_decay ^ t * spec_length_mask t n.

Definition spec_probs (t n c : nat) : R :=
  exp (get logits_train [t; n; c])
  / sum_n C (fun k => exp (get logits_train [t; n; k])).

Definition spec_logprobs (t n c : nat) : R :=
  ln (spec_probs t n c).

(** One term of the safe cross-entropy: [logq] is replaced by 1 where
    [p == 0]. *)
Definition spec_safe_term (p logq : R) : R :=
  p * (if Reqb p 0 then 1 else logq).

Definition spec_neglogp_per_step (t n : nat) : R :=
  - sum_n C (fun c =>
               spec_safe_term (get ideal_probs_train [t; n; c])
                              (spec_logprobs t n c)).

Definition spec_neglogp (n : nat) : R :=
  sum_n T (fun t => spec_neglogp_per_step t n * spec_length_mask t n).

Definition spec_loss_gp : R :=
  sum_n N (fun n => (get R_train [n] - baseline) * spec_neglogp n) / INR N.

Definition spec_entropy_per_step (t n : nat) : R :=
  - sum_n C (fun c =>
               spec_safe_term (spec_probs t n c) (spec_logprobs t n c)).

Definition spec_entropy (n : nat) : R :=
  sum_n T (fun t => spec_entropy_per_step t n * spec_entropy_decay_mask t n).

Definition spec_loss_entropy : R :=
  - entropy_weight * (sum_n N spec_entropy / INR N).

Definition spec_loss : R := spec_loss_gp + spec_loss_entropy.

End SpecFormulas.

(** ** Shapes and entries *)

(** The inputs have the shapes the docstring of [loss_func] gives them. *)
Definition valid_shapes (logits_train ideal_probs_train R_train : tensor R)
    (lengths : tensor Z) (T N C : nat) : Prop :=
  shape ideal_probs_train = [T; N; C] /\
  shape logits_train = [T; N; C] /\
  shape R_train = [N] /\
  shape lengths = [N].

(** [x] has shape [s] and the entries [g] at the indices of that shape. *)
Definition is_tensor {A : Type} (x : tensor A) (s : list nat)
    (g : list nat -> A) : Prop :=
  shape x = s /\ forall idx, in_range idx s -> get x idx = g idx.

(** The [k]-th component of an index. *)
Definition ix (idx : list nat) (k : nat) : nat := nth k idx 0.

(** One term of the sum of [safe_cross_entropy], over any scalars. *)
Definition safe_term {A : Type} `{Scalar A} (p logq : A) : A :=
  smul p (if seqb p szero then sone else logq).

(** The local variables hold the values of the specification's formulas. *)
Record locals_ok (logits_train ideal_probs_train R_train : tensor R)
    (baseline : R) (lengths : tensor Z) (gamma_decay entropy_weight : R)
    (T N C : nat) (l : locals) : Prop := {
  ok_mask_length :
    is_tensor (mask_length l) [T; N]
      (fun idx => spec_length_mask lengths (ix idx 0) (ix idx 1));
  ok_entropy_decay_mask :
    is_tensor (entropy_decay_mask l) [T; N]
      (fun idx => spec_entropy_decay_mask lengths gamma_decay
                    (ix idx 0) (ix idx 1));
  ok_probs :
    is_tensor (probs l) [T; N; C]
      (fun idx => spec_probs logits_train C (ix idx 0) (ix idx 1) (ix idx 2));
  ok_logprobs :
    is_tensor (logprobs l) [T; N; C]
      (fun idx => spec_logprobs logits_train C
                    (ix idx 0) (ix idx 1) (ix idx 2));
  ok_neglogp_per_step :
    is_tensor (neglogp_per_step l) [T; N]
      (fun idx => spec_neglogp_per_step logits_train ideal_probs_train C
                    (ix idx 0) (ix idx 1));
  ok_neglogp :
    is_tensor (neglogp l) [N]
      (fun idx => spec_neglogp logits_train ideal_probs_train lengths T C
                    (ix idx 0));
  ok_loss_gp :
    loss_gp l = spec_loss_gp logits_train ideal_probs_train R_train baseline
                  lengths T N C;
  ok_entropy_per_step :
    is_tensor (entropy_per_step l) [T; N]
      (fun idx => spec_entropy_per_step logits_train C (ix idx 0) (ix idx 1));
  ok_entropy :
    is_tensor (entropy l) [N]
      (fun idx => spec_entropy logits_train lengths gamma_decay T C
                    (ix idx 0));
  ok_loss_entropy :
    loss_entropy l = spec_loss_entropy logits_train lengths gamma_decay
                       entropy_weight T N C;
  ok_loss :
    loss l = spec_loss logits_train ideal_probs_train R_train baseline
               lengths gamma_decay entropy_weight T N C
}.

(** ** Predicates of the properties *)

(** What an entry contributes to the sum of [safe_cross_entropy] over the
    extended reals: nothing where [p == 0], the product [p * logq]
    elsewhere. *)
Definition contribution (p logq : xreal) : xreal :=
  if xeqb p (Fin 0) then Fin 0 else xmul p logq.

(** Two logits agree wherever the step is within the sample's length. *)
Definition agree_on_valid (logits1 logits2 : tensor R) (lengths : tensor Z)
    (T N C : nat) : Prop :=
  forall t n c, t < T -> n < N -> c < C ->
    (Z.of_nat t < get lengths [n])%Z ->
    get logits1 [t; n; c] = get logits2 [t; n; c].

(** The target at step [t] of sample [n] is one-hot on the choice [c]. *)
Definition one_hot_at (ideal_probs_train : tensor R) (C t n c : nat) : Prop :=
  get ideal_probs_train [t; n; c] = 1%R /\
  forall c', c' < C -> c' <> c -> get ideal_probs_train [t; n; c'] = 0%R.

(** Every valid step has a one-hot target. *)
Definition one_hot_valid_steps (ideal_probs_train : tensor R)
    (lengths : tensor Z) (T N C : nat) : Prop :=
  forall t n, t < T -> n < N -> (Z.of_nat t < get lengths [n])%Z ->
    exists c, c < C /\ one_hot_at ideal_probs_train C t n c.

(** Two sizes that differ and cannot be broadcast. *)
Definition incompatible (a b : nat) : Prop := a <> b /\ a <> 1 /\ b <> 1.

(** A length brought into the range of the time axis: what is below 0
    counts as 0 and what is above [T] as [T]. *)
Definition clamp_length (T : nat) (len : Z) : Z :=
  Z.min (Z.max len 0) (Z.of_nat T).

(** ** Concrete tensors *)

Definition of_list1 {A : Type} (d : A) (l : list A) : tensor A :=
  mkTensor [length l] (fun idx => nth (ix idx 0) l d).

Definition of_list3 (T N C : nat) (l : list (list (list R))) : tensor R :=
  mkTensor [T; N; C]
    (fun idx => nth (ix idx 2) (nth (ix idx 1) (nth (ix idx 0) l []) []) 0%R).

(** The scenario of the specification: T = 2, N = 1, C = 2, one valid step
    with uniform logits and target the first choice, and a second, masked
    step of logits [a; b] and targets [p; q]. *)
Definition scen_logits (a b : R) : tensor R :=
  of_list3 2 1 2 [[[0%R; 0%R]]; [[a; b]]].

Definition scen_ideal (p q : R) : tensor R :=
  of_list3 2 1 2 [[[1%R; 0%R]]; [[p; q]]].

Definition scen_R : tensor R := of_list1 0%R [1%R].

Definition scen_lengths : tensor Z := of_list1 0%Z [1%Z].

(** One sample, of length zero. *)
Definition zero_lengths : tensor Z := of_list1 0%Z [0%Z].

(** A probability of zero against a log-probability of minus infinity. *)
Definition guard_p : tensor xreal := of_list1 NaN [Fin 0; Fin 1].

Definition guard_logq : tensor xreal := of_list1 NaN [NInf; Fin 0].

(** Inputs on which the shapes disagree by a size of 1 only: R_train has
    one reward for N = 2 samples. *)
Definition bc_logits : tensor R :=
  of_list3 1 2 2 [[[0%R; 0%R]; [0%R; 0%R]]].

Definition bc_ideal : tensor R :=
  of_list3 1 2 2 [[[1%R; 0%R]; [0%R; 1%R]]].

Definition bc_R : tensor R := of_list1 0%R [1%R].

Definition bc_lengths : tensor Z := of_list1 0%Z [1%Z; 1%Z].

(** * Properties *)

(** ** Lemmas on the result monad, indices and broadcasting *)

Lemma bdim_same (a : nat) : bdim a a = Ok a.
Proof. unfold bdim. rewrite Nat.eqb_refl. reflexivity. Qed.

Lemma broadcast_rev_same (s : list nat) : broadcast_rev s s = Ok s.
Proof.
  induction s as [| a s IH]; simpl.
  - reflexivity.
  - rewrite bdim_same; simpl. rewrite IH; reflexivity.
Qed.

Lemma broadcast_shapes_same (s : list nat) : broadcast_shapes s s = Ok s.
Proof.
  unfold broadcast_shapes. rewrite broadcast_rev_same; simpl.
  rewrite rev_involutive; reflexivity.
Qed.

Lemma in_range_length (idx s : list nat) :
  in_range idx s -> length idx = length s.
Proof.
  revert s; induction idx as [| i idx IH]; intros [| d s]; simpl;
    try tauto.
  intros [_ H]. f_equal. apply IH, H.
Qed.

Lemma in_range_app (i1 i2 s1 s2 : list nat) :
  in_range i1 s1 -> in_range i2 s2 -> in_range (i1 ++ i2) (s1 ++ s2).
Proof.
  revert s1; induction i1 as [| i i1 IH]; intros [| d s1]; simpl;
    try tauto.
  intros [Hi H1] H2. split; [exact Hi | apply IH; assumption].
Qed.

Lemma in_range_rev (idx s : list nat) :
  in_range idx s -> in_range (rev idx) (rev s).
Proof.
  revert s; induction idx as [| i idx IH]; intros [| d s]; simpl;
    try tauto.
  intros [Hi H]. apply in_range_app.
  - apply IH, H.
  - simpl. tauto.
Qed.

Lemma bindex_in_range (s idx : list nat) :
  in_range idx s -> bindex s idx = idx.
Proof.
  intros H. unfold bindex.
  rewrite (in_range_length _ _ H), Nat.sub_diag. simpl.
  revert s H; induction idx as [| i idx IH]; intros [| d s]; simpl;
    try tauto.
  intros [Hi H]. rewrite (IH _ H). f_equal.
  destruct (Nat.eqb_spec d 1) as [-> | _]; [lia | reflexivity].
Qed.

Lemma in_range_insert_at (d k : nat) (idx s : list nat) :
  in_range idx (remove_at d s) -> k < nth d s 0 ->
  in_range (insert_at d k idx) s.
Proof.
  revert idx s; induction d as [| d IH]; intros idx [| a s]; simpl;
    try lia.
  - unfold insert_at, remove_at; simpl. tauto.
  - unfold insert_at, remove_at; simpl. destruct idx as [| i idx]; simpl.
    + tauto.
    + intros [Hi H] Hk. split; [exact Hi |]. apply IH; assumption.
Qed.

Lemma in_range_replace_at (d k : nat) (idx s : list nat) :
  in_range idx s -> k < nth d s 0 -> in_range (replace_at d k idx) s.
Proof.
  revert idx s; induction d as [| d IH]; intros [| i idx] [| a s]; simpl;
    try tauto; try lia.
  intros [Hi H] Hk. split; [exact Hi | exact (IH _ _ H Hk)].
Qed.

Lemma sum_n_ext {A : Type} `{Scalar A} (n : nat) (f g : nat -> A) :
  (forall k, k < n -> f k = g k) -> sum_n n f = sum_n n g.
Proof.
  induction n as [| n IH]; simpl; intros Hfg.
  - reflexivity.
  - rewrite IH, Hfg by auto. reflexivity.
Qed.

(** ** What each tensor operation computes on its valid indices *)

Lemma is_tensor_self {A : Type} (x : tensor A) :
  is_tensor x (shape x) (get x).
Proof. split; [reflexivity | intros; reflexivity]. Qed.

Lemma is_tensor_ext {A : Type} (x : tensor A) (s : list nat)
    (g g' : list nat -> A) :
  is_tensor x s g ->
  (forall idx, in_range idx s -> g idx = g' idx) ->
  is_tensor x s g'.
Proof.
  intros [Hs Hg] Hgg'. split; [exact Hs |].
  intros idx Hin. rewrite Hg by exact Hin. apply Hgg', Hin.
Qed.

Lemma tmap_spec {A B : Type} (f : A -> B) (x : tensor A) (s : list nat)
    (g : list nat -> A) :
  is_tensor x s g -> is_tensor (tmap f x) s (fun idx => f (g idx)).
Proof.
  intros [Hs Hg]. split; [exact Hs |].
  intros idx Hin; simpl. rewrite Hg by exact Hin. reflexivity.
Qed.

Lemma transpose_spec {A : Type} (x : tensor A) (s : list nat)
    (g : list nat -> A) :
  is_tensor x s g -> is_tensor (transpose x) (rev s) (fun idx => g (rev idx)).
Proof.
  intros [Hs Hg]. split; [simpl; rewrite Hs; reflexivity |].
  intros idx Hin; simpl. apply Hg.
  rewrite <- (rev_involutive s). apply in_range_rev, Hin.
Qed.

Lemma bmap2_spec {A B C : Type} (f : A -> B -> C) (x : tensor A)
    (y : tensor B) (s : list nat) (gx : list nat -> A) (gy : list nat -> B) :
  is_tensor x s gx -> is_tensor y s gy ->
  exists r, bmap2 f x y = Ok r /\
            is_tensor r s (fun idx => f (gx idx) (gy idx)).
Proof.
  intros [Hsx Hgx] [Hsy Hgy]. unfold bmap2.
  rewrite Hsx, Hsy, broadcast_shapes_same; simpl.
  eexists; split; [reflexivity |]. split; [reflexivity |].
  intros idx Hin; simpl.
  rewrite (bindex_in_range _ _ Hin), Hgx, Hgy by exact Hin. reflexivity.
Qed.

Lemma where_spec {A : Type} (cond : tensor bool) (x y : tensor A)
    (s : list nat) (gc : list nat -> bool) (gx gy : list nat -> A) :
  is_tensor cond s gc -> is_tensor x s gx -> is_tensor y s gy ->
  exists r, where_ cond x y = Ok r /\
            is_tensor r s (fun idx => if gc idx then gx idx else gy idx).
Proof.
  intros Hc Hx Hy. unfold where_.
  destruct (bmap2_spec pair Hx Hy) as [xy [-> Hxy]]; simpl.
  destruct (bmap2_spec (fun (c : bool) (p : A * A) =>
                          if c then fst p else snd p) Hc Hxy)
    as [r [-> Hr]].
  exists r; split; [reflexivity |].
  apply is_tensor_ext with (1 := Hr). intros idx _; simpl. reflexivity.
Qed.

Lemma normalize_dim_lt (rk : nat) (dim : Z) (d : nat) :
  normalize_dim rk dim = Ok d -> d < rk.
Proof.
  unfold normalize_dim.
  destruct (dim <? - Z.of_nat rk)%Z eqn:E1; simpl; [discriminate |].
  destruct (Z.of_nat rk <=? dim)%Z eqn:E2; simpl; [discriminate |].
  intros Hd; injection Hd as <-.
  apply Z.ltb_ge in E1. apply Z.leb_gt in E2.
  destruct (dim <? 0)%Z eqn:E3.
  - apply Z.ltb_lt in E3. lia.
  - apply Z.ltb_ge in E3. lia.
Qed.

Lemma tsum_spec {A : Type} `{Scalar A} (x : tensor A) (s : list nat)
    (g : list nat -> A) (dim : Z) (d : nat) :
  is_tensor x s g -> normalize_dim (length s) dim = Ok d ->
  exists r, tsum x dim = Ok r /\
            is_tensor r (remove_at d s)
              (fun idx => sum_n (nth d s 0)
                            (fun k => g (insert_at d k idx))).
Proof.
  intros [Hs Hg] Hd. unfold tsum, rank. rewrite Hs.
  destruct s as [| a s'].
  - apply normalize_dim_lt in Hd. simpl in Hd. lia.
  - rewrite Hd; simpl bind.
    eexists; split; [reflexivity |]. split; [reflexivity |].
    intros idx Hin; simpl get. apply sum_n_ext. intros k Hk.
    apply Hg. apply in_range_insert_at; assumption.
Qed.

Lemma np_tile_rows {A : Type} (x : tensor A) (L n : nat)
    (g : list nat -> A) :
  is_tensor x [L] g ->
  is_tensor (np_tile x [n; 1]) [n; L] (fun idx => g [ix idx 1]).
Proof.
  intros [Hs Hg]. unfold np_tile, rank, pad_left. rewrite Hs.
  split.
  - cbn [length Nat.max Nat.sub repeat app map2 shape].
    rewrite Nat.mul_1_l, Nat.mul_1_r. reflexivity.
  - intros idx Hin.
    destruct idx as [| i [| j [| k idx]]]; simpl in Hin; try tauto.
    destruct Hin as [Hi [Hj _]].
    cbn [length Nat.max Nat.sub repeat app map2 get skipn ix nth].
    rewrite (Nat.mod_small j L Hj). apply Hg. simpl. tauto.
Qed.

Lemma softmax_spec (x : tensor R) (s : list nat) (g : list nat -> R)
    (dim : Z) (d : nat) :
  is_tensor x s g -> normalize_dim (length s) dim = Ok d ->
  exists r, softmax x dim = Ok r /\
            is_tensor r s
              (fun idx => (exp (g idx)
                           / sum_n (nth d s 0%nat)
                               (fun k => exp (g (replace_at d k idx))))%R).
Proof.
  intros [Hs Hg] Hd. unfold softmax, rank. rewrite Hs.
  destruct s as [| a s'].
  - apply normalize_dim_lt in Hd. simpl in Hd. lia.
  - rewrite Hd; simpl bind.
    eexists; split; [reflexivity |]. split; [reflexivity |].
    intros idx Hin; simpl get. unfold softmax_at. rewrite Hs.
    rewrite (Hg _ Hin).
    rewrite (@sum_n_ext R _ (nth d (a :: s') 0)
               (fun k => exp (get x (replace_at d k idx)))
               (fun k => exp (g (replace_at d k idx)))); [reflexivity |].
    intros k Hk.
    rewrite Hg; [reflexivity |]. apply in_range_replace_at; assumption.
Qed.

Lemma log_softmax_spec (x : tensor R) (s : list nat) (g : list nat -> R)
    (dim : Z) (d : nat) :
  is_tensor x s g -> normalize_dim (length s) dim = Ok d ->
  exists r, log_softmax x dim = Ok r /\
            is_tensor r s
              (fun idx => ln (exp (g idx)
                              / sum_n (nth d s 0%nat)
                                  (fun k => exp (g (replace_at d k idx))))%R).
Proof.
  intros [Hs Hg] Hd. unfold log_softmax, rank. rewrite Hs.
  destruct s as [| a s'].
  - apply normalize_dim_lt in Hd. simpl in Hd. lia.
  - rewrite Hd; simpl bind.
    eexists; split; [reflexivity |]. split; [reflexivity |].
    intros idx Hin; simpl get. unfold softmax_at. rewrite Hs.
    rewrite (Hg _ Hin).
    rewrite (@sum_n_ext R _ (nth d (a :: s') 0)
               (fun k => exp (get x (replace_at d k idx)))
               (fun k => exp (g (replace_at d k idx)))); [reflexivity |].
    intros k Hk.
    rewrite Hg; [reflexivity |]. apply in_range_replace_at; assumption.
Qed.

Lemma safe_cross_entropy_spec {A : Type} `{Scalar A} (p logq : tensor A)
    (s : list nat) (gp gq : list nat -> A) (dim : Z) (d : nat) :
  is_tensor p s gp -> is_tensor logq s gq ->
  normalize_dim (length s) dim = Ok d ->
  exists r, safe_cross_entropy p logq dim = Ok r /\
            is_tensor r (remove_at d s)
              (fun idx => sopp (sum_n (nth d s 0)
                                  (fun k => safe_term
                                              (gp (insert_at d k idx))
                                              (gq (insert_at d k idx))))).
Proof.
  intros Hp Hq Hd. unfold safe_cross_entropy.
  assert (Hc : is_tensor (eq_zero p) s (fun idx => seqb (gp idx) szero))
    by (apply (tmap_spec (fun a => seqb a szero) Hp)).
  assert (Ho : is_tensor (ones_like logq) s (fun _ => sone)).
  { destruct Hq as [Hs _]. split; [exact Hs | reflexivity]. }
  destruct (where_spec Hc Ho Hq) as [safe_logq [-> Hsafe]]; simpl bind.
  unfold tmul.
  destruct (bmap2_spec smul Hp Hsafe) as [prod [-> Hprod]]; simpl bind.
  destruct (tsum_spec dim Hprod Hd) as [sm [-> Hsm]]; simpl bind.
  eexists; split; [reflexivity |].
  apply (tmap_spec sopp Hsm).
Qed.

Lemma mean_spec (x : tensor R) (n : nat) (g : list nat -> R) :
  is_tensor x [n] g ->
  mean x = (sum_n n (fun k => g [k]) / INR n)%R.
Proof.
  intros [Hs Hg]. unfold mean. rewrite Hs. simpl.
  rewrite Nat.mul_1_r. f_equal. apply sum_n_ext. intros k Hk.
  apply Hg. simpl. tauto.
Qed.

(** ** The local variables of [loss_func] on inputs of valid shapes *)

(** Splits an index known to be in the range of a shape of known rank into
    its components. *)
Ltac index_cases idx Hin :=
  repeat (destruct idx as [| ? idx]; simpl in Hin; try (exfalso; tauto)).

Ltac index_simpl :=
  cbn [ix nth rev app insert_at replace_at remove_at firstn skipn length].

Lemma mask_length_np_spec (T N : nat) (lengths : tensor Z) :
  shape lengths = [N] ->
  exists m, mask_length_np T N lengths = Ok m /\
            is_tensor m [T; N]
              (fun idx => spec_length_mask lengths (ix idx 0) (ix idx 1)).
Proof.
  intros Hs. unfold mask_length_np.
  assert (Ha : is_tensor (np_arange T) [T] (fun idx => Z.of_nat (ix idx 0)))
    by (split; [reflexivity | intros; reflexivity]).
  assert (Hl : is_tensor lengths [N] (get lengths))
    by (rewrite <- Hs; apply is_tensor_self).
  pose proof (np_tile_rows N Ha) as Ha'.
  pose proof (transpose_spec (np_tile_rows T Hl)) as Hl'.
  cbn [rev app] in Hl'.
  destruct (bmap2_spec Z.ltb Ha' Hl') as [m [-> Hm]]; simpl bind.
  eexists; split; [reflexivity |].
  pose proof (tmap_spec bool_to_float (transpose_spec Hm)) as Hr.
  cbn [rev app] in Hr.
  apply is_tensor_ext with (1 := Hr).
  intros idx Hin. index_cases idx Hin. index_simpl. reflexivity.
Qed.

Lemma entropy_decay_mask_np_spec (T N : nat) (gamma_decay : R)
    (m : tensor R) (g : list nat -> R) :
  is_tensor m [T; N] g ->
  exists e, entropy_decay_mask_np T N gamma_decay m = Ok e /\
            is_tensor e [T; N]
              (fun idx => (gamma_decay ^ ix idx 0 * g idx)%R).
Proof.
  intros Hm. unfold entropy_decay_mask_np.
  assert (Hg : is_tensor (entropy_gamma_decay T gamma_decay) [T]
                 (fun idx => (gamma_decay ^ ix idx 0)%R))
    by (split; [reflexivity | intros; reflexivity]).
  pose proof (transpose_spec (np_tile_rows N Hg)) as Hg'.
  cbn [rev app] in Hg'.
  destruct (bmap2_spec Rmult Hg' Hm) as [e [-> He]].
  exists e; split; [reflexivity |].
  apply is_tensor_ext with (1 := He).
  intros idx Hin. index_cases idx Hin. index_simpl. reflexivity.
Qed.

Lemma loss_func_body_spec
    (logits_train ideal_probs_train R_train : tensor R) (baseline : R)
    (lengths : tensor Z) (gamma_decay entropy_weight : R) (T N C : nat) :
  valid_shapes logits_train ideal_probs_train R_train lengths T N C ->
  exists l,
    loss_func_body logits_train ideal_probs_train R_train baseline lengths
      gamma_decay entropy_weight = Ok l /\
    locals_ok logits_train ideal_probs_train R_train baseline lengths
      gamma_decay entropy_weight T N C l.
Proof.
  intros (Hi & Hx & Hr & Hl). unfold loss_func_body.
  rewrite Hi; simpl bind.
  destruct (mask_length_np_spec T lengths Hl) as [m [-> Hm]]; simpl bind.
  destruct (entropy_decay_mask_np_spec gamma_decay Hm) as [e [-> He]];
    simpl bind.
  assert (Hideal : is_tensor ideal_probs_train [T; N; C]
                     (get ideal_probs_train))
    by (rewrite <- Hi; apply is_tensor_self).
  assert (Hlogits : is_tensor logits_train [T; N; C] (get logits_train))
    by (rewrite <- Hx; apply is_tensor_self).
  assert (Hrew : is_tensor R_train [N] (get R_train))
    by (rewrite <- Hr; apply is_tensor_self).
  assert (Hd : normalize_dim (length [T; N; C]) 2 = Ok 2) by reflexivity.
  assert (Hd0 : normalize_dim (length [T; N]) 0 = Ok 0) by reflexivity.
  destruct (softmax_spec 2 Hlogits Hd) as [p [-> Hp0]]; simpl bind.
  destruct (log_softmax_spec 2 Hlogits Hd) as [lp [-> Hlp0]]; simpl bind.
  assert (Hp : is_tensor p [T; N; C]
                 (fun idx => spec_probs logits_train C
                               (ix idx 0) (ix idx 1) (ix idx 2))).
  { apply is_tensor_ext with (1 := Hp0).
    intros idx Hin. index_cases idx Hin. reflexivity. }
  assert (Hlp : is_tensor lp [T; N; C]
                  (fun idx => spec_logprobs logits_train C
                                (ix idx 0) (ix idx 1) (ix idx 2))).
  { apply is_tensor_ext with (1 := Hlp0).
    intros idx Hin. index_cases idx Hin. reflexivity. }
  clear Hp0 Hlp0.
  destruct (safe_cross_entropy_spec 2 Hideal Hlp Hd) as [nps [-> Hnps0]];
    simpl bind.
  assert (Hnps : is_tensor nps [T; N]
                   (fun idx => spec_neglogp_per_step logits_train
                                 ideal_probs_train C (ix idx 0) (ix idx 1))).
  { apply is_tensor_ext with (1 := Hnps0).
    intros idx Hin. index_cases idx Hin. reflexivity. }
  clear Hnps0. unfold tmul.
  destruct (bmap2_spec Rmult Hnps Hm) as [nprod [Enprod Hnprod]].
  change (@smul R R_Scalar) with Rmult. rewrite Enprod; simpl bind.
  destruct (tsum_spec 0 Hnprod Hd0) as [nl [-> Hnl0]]; simpl bind.
  assert (Hnl : is_tensor nl [N]
                  (fun idx => spec_neglogp logits_train ideal_probs_train
                                lengths T C (ix idx 0))).
  { apply is_tensor_ext with (1 := Hnl0).
    intros idx Hin. index_cases idx Hin. reflexivity. }
  clear Hnl0.
  destruct (bmap2_spec Rmult
              (tmap_spec (fun r => (r - baseline)%R) Hrew) Hnl)
    as [gprod [-> Hgprod]]; simpl bind.
  destruct (safe_cross_entropy_spec 2 Hp Hlp Hd) as [eps [-> Heps0]];
    simpl bind.
  assert (Heps : is_tensor eps [T; N]
                   (fun idx => spec_entropy_per_step logits_train C
                                 (ix idx 0) (ix idx 1))).
  { apply is_tensor_ext with (1 := Heps0).
    intros idx Hin. index_cases idx Hin. reflexivity. }
  clear Heps0.
  destruct (bmap2_spec Rmult Heps He) as [eprod [-> Heprod]]; simpl bind.
  destruct (tsum_spec 0 Heprod Hd0) as [en [-> Hen0]]; simpl bind.
  assert (Hen : is_tensor en [N]
                  (fun idx => spec_entropy logits_train lengths gamma_decay
                                T C (ix idx 0))).
  { apply is_tensor_ext with (1 := Hen0).
    intros idx Hin. index_cases idx Hin. reflexivity. }
  clear Hen0.
  assert (Hgp : mean gprod
                = spec_loss_gp logits_train ideal_probs_train R_train
                    baseline lengths T N C)
    by (rewrite (mean_spec Hgprod); reflexivity).
  assert (Hle : (- entropy_weight * mean en)%R
                = spec_loss_entropy logits_train lengths gamma_decay
                    entropy_weight T N C)
    by (rewrite (mean_spec Hen); reflexivity).
  eexists; split; [reflexivity |].
  constructor; cbn [mask_length entropy_decay_mask probs logprobs
                    neglogp_per_step neglogp loss_gp entropy_per_step
                    entropy loss_entropy loss];
    try assumption.
  unfold spec_loss. rewrite Hgp, Hle. reflexivity.
Qed.

(** ** Sums of reals *)

Lemma sum_n_zero (n : nat) (f : nat -> R) :
  (forall k, k < n -> f k = 0%R) -> sum_n n f = 0%R.
Proof.
  induction n as [| n IH]; simpl; intros Hf.
  - reflexivity.
  - rewrite IH, Hf by auto. lra.
Qed.

Lemma sum_n_single (n c : nat) (f : nat -> R) :
  c < n -> (forall k, k < n -> k <> c -> f k = 0%R) -> sum_n n f = f c.
Proof.
  induction n as [| n IH]; simpl; intros Hc Hf.
  - lia.
  - destruct (Nat.eq_dec c n) as [-> | Hne].
    + rewrite sum_n_zero; [lra |]. intros k Hk. apply Hf; lia.
    + rewrite IH, (Hf n) by (auto; lia). lra.
Qed.

Lemma Reqb_true (x y : R) : Reqb x y = true <-> x = y.
Proof.
  unfold Reqb. destruct (Req_dec_T x y) as [E | E]; split; intros H';
    try assumption; try reflexivity; try discriminate.
  contradiction.
Qed.

Lemma Reqb_false (x y : R) : Reqb x y = false <-> x <> y.
Proof.
  unfold Reqb. destruct (Req_dec_T x y) as [E | E]; split; intros H';
    try assumption; try reflexivity; try discriminate.
  contradiction.
Qed.

Lemma spec_safe_term_zero (logq : R) : spec_safe_term 0 logq = 0%R.
Proof. unfold spec_safe_term. lra. Qed.

Lemma spec_safe_term_nonzero (p logq : R) :
  p <> 0%R -> spec_safe_term p logq = (p * logq)%R.
Proof.
  intros Hp. unfold spec_safe_term.
  apply Reqb_false in Hp. rewrite Hp. reflexivity.
Qed.

Lemma scen_valid (a b p q : R) :
  valid_shapes (scen_logits a b) (scen_ideal p q) scen_R scen_lengths 2 1 2.
Proof. repeat split. Qed.

(** ** The loss and its terms *)



(** ** The guard of [safe_cross_entropy] *)

Lemma xeqb_zero (p : xreal) : xeqb p (Fin 0) = true -> p = Fin 0.
Proof.
  destruct p as [r | | |]; simpl; try discriminate.
  intros H. apply Reqb_true in H. rewrite H. reflexivity.
Qed.

Lemma safe_term_contribution (p logq : xreal) :
  safe_term p logq = contribution p logq.
Proof.
  unfold safe_term, contribution; simpl.
  destruct (xeqb p (Fin 0)) eqn:E; [| reflexivity].
  rewrite (xeqb_zero _ E); simpl. f_equal. lra.
Qed.

(** Without the guard, a zero probability against a log-probability of
    minus infinity is NaN; with it, the entry is zero. *)
Example unguarded_zero_times_neg_infinity :
  xmul (Fin 0) NInf = NaN /\ safe_term (Fin 0) NInf = Fin 0.
Proof.
  split.
  - simpl. unfold xscale_inf.
    destruct (Req_dec_T 0 0) as [_ | H]; [reflexivity | contradiction].
  - rewrite safe_term_contribution. unfold contribution; simpl.
    unfold Reqb. destruct (Req_dec_T 0 0) as [_ | H];
      [reflexivity | contradiction].
Qed.

(** A product with 0, the value of the mask at a masked step, vanishes for a
    finite factor only: NaN and the infinities are not absorbed.  The loss
    itself is stated on real scalars, where every factor is finite. *)
Example zero_absorbs_finite_only :
  (forall r, xmul (Fin r) (Fin 0) = Fin 0) /\
  xmul NaN (Fin 0) = NaN /\
  xmul PInf (Fin 0) = NaN.
Proof.
  split; [| split].
  - intros r. simpl. f_equal. lra.
  - reflexivity.
  - simpl. unfold xscale_inf.
    destruct (Req_dec_T 0 0) as [_ | H]; [reflexivity | contradiction].
Qed.

(** C2: for tensors [p] and [logq] of one shape and an axis [dim] of that
    shape, [safe_cross_entropy p logq dim] is minus the sum along [dim] of
    [p * logq] with [logq] replaced by 1 exactly where [p == 0]: an entry
    with [p == 0] contributes exactly 0 whatever [logq] is there (minus
    infinity and NaN included), and the other entries contribute
    [p * logq] unaltered. *)
Theorem safe_cross_entropy_guard (p logq : tensor xreal) (dim : Z) (d : nat) :
  shape logq = shape p ->
  normalize_dim (rank p) dim = Ok d ->
  exists r,
    safe_cross_entropy p logq dim = Ok r /\
    shape r = remove_at d (shape p) /\
    forall idx, in_range idx (shape r) ->
      let pk := fun k => get p (insert_at d k idx) in
      let qk := fun k => get logq (insert_at d k idx) in
      get r idx
      = xopp (sum_n (nth d (shape p) 0)
                (fun k => xmul (pk k)
                            (if xeqb (pk k) (Fin 0) then Fin 1 else qk k)))
      /\ get r idx
         = xopp (sum_n (nth d (shape p) 0)
                   (fun k => contribution (pk k) (qk k)))
      /\ (forall k, xeqb (pk k) (Fin 0) = true ->
                    contribution (pk k) (qk k) = Fin 0)
      /\ (forall k, xeqb (pk k) (Fin 0) = false ->
                    contribution (pk k) (qk k) = xmul (pk k) (qk k)).
Proof.
  intros Hs Hd.
  assert (Hp : is_tensor p (shape p) (get p)) by apply is_tensor_self.
  assert (Hq : is_tensor logq (shape p) (get logq))
    by (rewrite <- Hs; apply is_tensor_self).
  destruct (safe_cross_entropy_spec dim Hp Hq Hd) as [r [Er [Hsr Hr]]].
  exists r. split; [exact Er |]. split; [exact Hsr |].
  intros idx Hin pk qk. rewrite Hsr in Hin.
  split; [| split; [| split]].
  - rewrite (Hr idx Hin). reflexivity.
  - rewrite (Hr idx Hin). simpl. f_equal.
    apply sum_n_ext. intros k _. apply safe_term_contribution.
  - intros k E. unfold contribution. rewrite E. reflexivity.
  - intros k E. unfold contribution. rewrite E. reflexivity.
Qed.

Lemma safe_cross_entropy_guard_witness :
  exists r,
    safe_cross_entropy guard_p guard_logq (-1) = Ok r /\
    shape r = [] /\
    forall idx, in_range idx (shape r) ->
      let pk := fun k => get guard_p (insert_at 0 k idx) in
      let qk := fun k => get guard_logq (insert_at 0 k idx) in
      get r idx
      = xopp (sum_n 2
                (fun k => xmul (pk k)
                            (if xeqb (pk k) (Fin 0) then Fin 1 else qk k)))
      /\ get r idx = xopp (sum_n 2 (fun k => contribution (pk k) (qk k)))
      /\ (forall k, xeqb (pk k) (Fin 0) = true ->
                    contribution (pk k) (qk k) = Fin 0)
      /\ (forall k, xeqb (pk k) (Fin 0) = false ->
                    contribution (pk k) (qk k) = xmul (pk k) (qk k)).
Proof.
  apply (@safe_cross_entropy_guard guard_p guard_logq (-1)%Z 0).
  - reflexivity.
  - reflexivity.
Defined.

(** ** Mask invariance *)

Section MaskInvariance.

Variables logits1 logits2 ideal_probs_train : tensor R.
Variable lengths : tensor Z.
Variables T N C : nat.

Hypothesis Hagree : agree_on_valid logits1 logits2 lengths T N C.

Lemma spec_probs_agree (t n c : nat) :
  t < T -> n < N -> (Z.of_nat t < get lengths [n])%Z -> c < C ->
  spec_probs logits1 C t n c = spec_probs logits2 C t n c.
Proof.
  intros Ht Hn Hlt Hc. unfold spec_probs.
  rewrite (Hagree Ht Hn Hc Hlt).
  rewrite (@sum_n_ext R _ C (fun k => exp (get logits1 [t; n; k]))
             (fun k => exp (get logits2 [t; n; k]))); [reflexivity |].
  intros k Hk. rewrite (Hagree Ht Hn Hk Hlt). reflexivity.
Qed.

Lemma spec_neglogp_per_step_agree (t n : nat) :
  t < T -> n < N -> (Z.of_nat t < get lengths [n])%Z ->
  spec_neglogp_per_step logits1 ideal_probs_train C t n
  = spec_neglogp_per_step logits2 ideal_probs_train C t n.
Proof.
  intros Ht Hn Hlt. unfold spec_neglogp_per_step, spec_logprobs.
  f_equal. apply sum_n_ext. intros c Hc.
  rewrite (spec_probs_agree Ht Hn Hlt Hc). reflexivity.
Qed.

Lemma spec_entropy_per_step_agree (t n : nat) :
  t < T -> n < N -> (Z.of_nat t < get lengths [n])%Z ->
  spec_entropy_per_step logits1 C t n = spec_entropy_per_step logits2 C t n.
Proof.
  intros Ht Hn Hlt. unfold spec_entropy_per_step, spec_logprobs.
  f_equal. apply sum_n_ext. intros c Hc.
  rewrite (spec_probs_agree Ht Hn Hlt Hc). reflexivity.
Qed.

Lemma spec_neglogp_agree (n : nat) :
  n < N ->
  spec_neglogp logits1 ideal_probs_train lengths T C n
  = spec_neglogp logits2 ideal_probs_train lengths T C n.
Proof.
  intros Hn. unfold spec_neglogp. apply sum_n_ext. intros t Ht.
  unfold spec_length_mask.
  destruct (Z.ltb_spec (Z.of_nat t) (get lengths [n])) as [Hlt | Hge].
  - rewrite (spec_neglogp_per_step_agree Ht Hn Hlt). reflexivity.
  - rewrite !Rmult_0_r. reflexivity.
Qed.

Lemma spec_entropy_agree (gamma_decay : R) (n : nat) :
  n < N ->
  spec_entropy logits1 lengths gamma_decay T C n
  = spec_entropy logits2 lengths gamma_decay T C n.
Proof.
  intros Hn. unfold spec_entropy. apply sum_n_ext. intros t Ht.
  unfold spec_entropy_decay_mask, spec_length_mask.
  destruct (Z.ltb_spec (Z.of_nat t) (get lengths [n])) as [Hlt | Hge].
  - rewrite (spec_entropy_per_step_agree Ht Hn Hlt). reflexivity.
  - rewrite !Rmult_0_r. reflexivity.
Qed.

End MaskInvariance.



(** ** The masks *)

(** C4: for a [lengths] of shape (N), the length mask has shape (T, N) and,
    at every [t < T] and [n < N], is 1 if [t < lengths[n]] and 0
    otherwise. *)
Theorem mask_length_entries (T N : nat) (lengths : tensor Z) :
  shape lengths = [N] ->
  exists m,
    mask_length_np T N lengths = Ok m /\
    shape m = [T; N] /\
    forall t n, t < T -> n < N ->
      get m [t; n]
      = if (Z.of_nat t <? get lengths [n])%Z then 1%R else 0%R.
Proof.
  intros Hs.
  destruct (mask_length_np_spec T lengths Hs) as [m [Em [Hsm Hg]]].
  exists m. split; [exact Em |]. split; [exact Hsm |].
  intros t n Ht Hn. rewrite Hg by (simpl; tauto). reflexivity.
Qed.

Lemma mask_length_entries_witness :
  exists m,
    mask_length_np 3 2 (of_list1 0%Z [2%Z; 0%Z]) = Ok m /\
    shape m = [3; 2] /\
    forall t n, t < 3 -> n < 2 ->
      get m [t; n]
      = if (Z.of_nat t <? get (of_list1 0%Z [2%Z; 0%Z]) [n])%Z
        then 1%R else 0%R.
Proof.
  apply (@mask_length_entries 3 2 (of_list1 0%Z [2%Z; 0%Z])).
  reflexivity.
Defined.

(** C6: with [gamma_decay = 1] the entropy mask is the length mask: they
    have the same shape and, at every [t] and [n],
    [entropy_decay_mask[t,n] = 1^t * length_mask[t,n] = length_mask[t,n]]. *)
Theorem entropy_decay_mask_no_decay
    (logits_train ideal_probs_train R_train : tensor R) (baseline : R)
    (lengths : tensor Z) (entropy_weight : R) (T N C : nat) :
  valid_shapes logits_train ideal_probs_train R_train lengths T N C ->
  exists l,
    loss_func_body logits_train ideal_probs_train R_train baseline lengths
      1 entropy_weight = Ok l /\
    shape (entropy_decay_mask l) = shape (mask_length l) /\
    forall t n, t < T -> n < N ->
      get (entropy_decay_mask l) [t; n]
      = (1 ^ t * get (mask_length l) [t; n])%R /\
      get (entropy_decay_mask l) [t; n] = get (mask_length l) [t; n].
Proof.
  intros Hv.
  destruct (loss_func_body_spec baseline 1 entropy_weight Hv) as [l [E Hl]].
  exists l. split; [exact E |].
  destruct (ok_mask_length Hl) as [Hsm Hm].
  destruct (ok_entropy_decay_mask Hl) as [Hse He].
  split; [rewrite Hsm, Hse; reflexivity |].
  intros t n Ht Hn.
  rewrite He, Hm by (simpl; tauto).
  unfold spec_entropy_decay_mask; index_simpl. rewrite pow1.
  split; lra.
Qed.

Lemma entropy_decay_mask_no_decay_witness :
  exists l,
    loss_func_body (scen_logits 3 4) (scen_ideal 0 1) scen_R 0 scen_lengths
      1 1 = Ok l /\
    shape (entropy_decay_mask l) = shape (mask_length l) /\
    forall t n, t < 2 -> n < 1 ->
      get (entropy_decay_mask l) [t; n]
      = (1 ^ t * get (mask_length l) [t; n])%R /\
      get (entropy_decay_mask l) [t; n] = get (mask_length l) [t; n].
Proof.
  apply (@entropy_decay_mask_no_decay (scen_logits 3 4) (scen_ideal 0 1)
           scen_R 0%R scen_lengths 1%R 2 1 2).
  repeat split.
Defined.

(** ** Special cases of the loss *)



(** ** One-hot targets *)

Lemma spec_neglogp_per_step_one_hot
    (logits_train ideal_probs_train : tensor R) (C t n c : nat) :
  c < C -> one_hot_at ideal_probs_train C t n c ->
  spec_neglogp_per_step logits_train ideal_probs_train C t n
  = (- spec_logprobs logits_train C t n c)%R.
Proof.
  intros Hc [H1 H0]. unfold spec_neglogp_per_step. f_equal.
  rewrite (@sum_n_single C c); [| exact Hc |].
  - rewrite H1. rewrite spec_safe_term_nonzero by lra. lra.
  - intros k Hk Hne. rewrite (H0 k Hk Hne). apply spec_safe_term_zero.
Qed.

(** C5: if the targets are one-hot at every valid step, then at every valid
    step [neglogp_per_step[t,n]] is [-logprobs[t,n,c]] for the chosen choice
    [c], the negative logarithm of the softmax probability of [c]. *)
Theorem one_hot_neglogp_per_step
    (logits_train ideal_probs_train R_train : tensor R) (baseline : R)
    (lengths : tensor Z) (gamma_decay entropy_weight : R) (T N C : nat) :
  valid_shapes logits_train ideal_probs_train R_train lengths T N C ->
  one_hot_valid_steps ideal_probs_train lengths T N C ->
  exists l,
    loss_func_body logits_train ideal_probs_train R_train baseline lengths
      gamma_decay entropy_weight = Ok l /\
    forall t n c, t < T -> n < N -> (Z.of_nat t < get lengths [n])%Z ->
      c < C -> get ideal_probs_train [t; n; c] = 1%R ->
      get (neglogp_per_step l) [t; n] = (- get (logprobs l) [t; n; c])%R /\
      get (logprobs l) [t; n; c] = ln (get (probs l) [t; n; c]) /\
      get (probs l) [t; n; c]
      = (exp (get logits_train [t; n; c])
         / sum_n C (fun k => exp (get logits_train [t; n; k])))%R.
Proof.
  intros Hv Hhot.
  destruct (loss_func_body_spec baseline gamma_decay entropy_weight Hv)
    as [l [E Hl]].
  exists l. split; [exact E |].
  intros t n c Ht Hn Hlt Hc Hone.
  destruct (ok_neglogp_per_step Hl) as [_ Hnps].
  destruct (ok_logprobs Hl) as [_ Hlp].
  destruct (ok_probs Hl) as [_ Hp].
  rewrite Hnps, Hlp, Hp by (simpl; tauto). index_simpl.
  split; [| split; reflexivity].
  destruct (Hhot t n Ht Hn Hlt) as [c0 [Hc0 Hc0hot]].
  assert (c = c0) as ->.
  { destruct (Nat.eq_dec c c0) as [Heq | Hne]; [exact Heq |].
    destruct Hc0hot as [_ H0]. rewrite (H0 c Hc Hne) in Hone. lra. }
  apply spec_neglogp_per_step_one_hot; assumption.
Qed.

Lemma one_hot_neglogp_per_step_witness :
  exists l,
    loss_func_body (scen_logits 3 4) (scen_ideal 0 1) scen_R 0 scen_lengths
      1 1 = Ok l /\
    forall t n c, t < 2 -> n < 1 -> (Z.of_nat t < get scen_lengths [n])%Z ->
      c < 2 -> get (scen_ideal 0 1) [t; n; c] = 1%R ->
      get (neglogp_per_step l) [t; n] = (- get (logprobs l) [t; n; c])%R /\
      get (logprobs l) [t; n; c] = ln (get (probs l) [t; n; c]) /\
      get (probs l) [t; n; c]
      = (exp (get (scen_logits 3 4) [t; n; c])
         / sum_n 2 (fun k => exp (get (scen_logits 3 4) [t; n; k])))%R.
Proof.
  apply (@one_hot_neglogp_per_step (scen_logits 3 4) (scen_ideal 0 1) scen_R
           0%R scen_lengths 1%R 1%R 2 1 2).
  - repeat split.
  - intros t n Ht Hn Hlt.
    destruct n as [| n]; [| lia].
    destruct t as [| [| t]]; [| simpl in Hlt; lia | lia].
    exists 0. split; [lia |]. split; [reflexivity |].
    intros c' Hc' Hne.
    destruct c' as [| [| c']]; [lia | reflexivity | lia].
Defined.

(** ** Samples of length zero *)



(** ** The scenario of the specification *)

Lemma ln_half : ln (1 / 2) = (- ln 2)%R.
Proof.
  replace (1 / 2)%R with (/ 2)%R by lra. apply ln_Rinv. lra.
Qed.

(** *** The value of [ln 2]

    The partial sums [E1 x n] of the exponential series bound [exp x] from
    below at [x >= 0], and so do those of odd order at [-x] for
    [0 <= x <= 1]; the two bounds enclose [ln 2]. *)

Lemma E1_S (x : R) (n : nat) :
  E1 x (S n) = (E1 x n + / INR (fact (S n)) * x ^ S n)%R.
Proof. reflexivity. Qed.

Lemma E1_le_exp (x : R) (n : nat) : (0 <= x)%R -> (E1 x n <= exp x)%R.
Proof.
  intros Hx. apply growing_ineq; [| apply E1_cvg].
  intros k. rewrite E1_S.
  assert (0 <= / INR (fact (S k)) * x ^ S k)%R; [| lra].
  apply Rmult_le_pos.
  - left. apply Rinv_0_lt_compat, INR_fact_lt_0.
  - apply pow_le, Hx.
Qed.

Lemma E1_odd_growing (x : R) (m : nat) :
  (0 <= x <= 1)%R -> (E1 (- x) (2 * m + 1) <= E1 (- x) (2 * S m + 1))%R.
Proof.
  intros [Hx0 Hx1].
  replace (2 * S m + 1) with (S (S (2 * m + 1))) by lia.
  rewrite !E1_S.
  set (k := 2 * m + 1).
  assert (HP : (0 <= (- x) ^ S k)%R).
  { replace (S k) with (2 * S m) by (unfold k; lia).
    rewrite pow_mult. apply pow_le. simpl. nra. }
  assert (HF : (0 < / INR (fact (S k)))%R)
    by apply Rinv_0_lt_compat, INR_fact_lt_0.
  assert (Hc : (1 <= INR (S (S k)))%R).
  { rewrite <- INR_1. apply le_INR. lia. }
  replace (fact (S (S k))) with (S (S k) * fact (S k)) by reflexivity.
  rewrite mult_INR, Rinv_mult.
  replace ((- x) ^ S (S k))%R with (- x * (- x) ^ S k)%R by reflexivity.
  set (P := ((- x) ^ S k)%R) in *. set (iF := (/ INR (fact (S k)))%R) in *.
  assert (Hic : (0 < / INR (S (S k)) <= 1)%R).
  { split; [apply Rinv_0_lt_compat; lra |].
    rewrite <- Rinv_1. apply Rinv_le_contravar; lra. }
  set (ic := (/ INR (S (S k)))%R) in *.
  assert (0 <= iF * P * (1 - ic * x))%R; [| lra].
  apply Rmult_le_pos; [apply Rmult_le_pos; lra | nra].
Qed.

Lemma E1_odd_le_exp (x : R) (m : nat) :
  (0 <= x <= 1)%R -> (E1 (- x) (2 * m + 1) <= exp (- x))%R.
Proof.
  intros Hx.
  apply (growing_ineq (fun j => E1 (- x) (2 * j + 1))).
  - intros j. apply E1_odd_growing, Hx.
  - intros eps Heps. destruct (E1_cvg (- x) eps Heps) as [N0 HN0].
    exists N0. intros n Hn. apply HN0. lia.
Qed.

Lemma E1_6 (x : R) :
  E1 x 6
  = (1 + x + x ^ 2 / 2 + x ^ 3 / 6 + x ^ 4 / 24 + x ^ 5 / 120
     + x ^ 6 / 720)%R.
Proof.
  unfold E1. cbn [sum_f_R0]. rewrite !INR_IZR_INZ.
  cbn [fact Nat.mul Nat.add Z.of_nat Pos.of_succ_nat Pos.succ].
  field.
Qed.

Lemma E1_7 (x : R) :
  E1 x 7
  = (1 + x + x ^ 2 / 2 + x ^ 3 / 6 + x ^ 4 / 24 + x ^ 5 / 120
     + x ^ 6 / 720 + x ^ 7 / 5040)%R.
Proof.
  unfold E1. cbn [sum_f_R0]. rewrite !INR_IZR_INZ.
  cbn [fact Nat.mul Nat.add Z.of_nat Pos.of_succ_nat Pos.succ].
  field.
Qed.

Lemma exp_above_2 : (2 < exp 0.6932)%R.
Proof.
  apply Rlt_le_trans with (E1 0.6932 6).
  - rewrite E1_6. lra.
  - apply E1_le_exp. lra.
Qed.

Lemma exp_below_2 : (exp 0.6931 < 2)%R.
Proof.
  assert (H : (/ 2 < exp (Ropp 0.6931))%R).
  { apply Rlt_le_trans with (E1 (Ropp 0.6931) (2 * 3 + 1)).
    - change (2 * 3 + 1) with 7. rewrite E1_7. lra.
    - apply E1_odd_le_exp. lra. }
  rewrite exp_Ropp in H.
  destruct (Rlt_le_dec (exp 0.6931) 2) as [Hlt | Hge]; [exact Hlt |].
  assert (/ exp 0.6931 <= / 2)%R by (apply Rinv_le_contravar; lra).
  lra.
Qed.

Lemma ln_2_bounds : (0.6931 < ln 2 < 0.6932)%R.
Proof.
  split.
  - rewrite <- (ln_exp 0.6931). apply ln_increasing; [apply exp_pos |].
    exact exp_below_2.
  - rewrite <- (ln_exp 0.6932). apply ln_increasing; [lra |].
    exact exp_above_2.
Qed.

Lemma scen_probs (a b : R) (c : nat) :
  c < 2 -> spec_probs (scen_logits a b) 2 0 0 c = (1 / 2)%R.
Proof.
  intros Hc. unfold spec_probs. cbn [sum_n sadd szero R_Scalar].
  replace (get (scen_logits a b) [0; 0; 0]) with 0%R by reflexivity.
  replace (get (scen_logits a b) [0; 0; 1]) with 0%R by reflexivity.
  replace (get (scen_logits a b) [0; 0; c]) with 0%R
    by (destruct c as [| [| c]]; [reflexivity | reflexivity | lia]).
  rewrite exp_0. lra.
Qed.

Lemma scen_neglogp_per_step (a b p q : R) :
  spec_neglogp_per_step (scen_logits a b) (scen_ideal p q) 2 0 0 = ln 2.
Proof.
  rewrite (@spec_neglogp_per_step_one_hot _ _ 2 0 0 0).
  - unfold spec_logprobs. rewrite scen_probs by lia. rewrite ln_half. lra.
  - lia.
  - split; [reflexivity |].
    intros c' Hc' Hne. destruct c' as [| [| c']]; [lia | reflexivity | lia].
Qed.

Lemma scen_entropy_per_step (a b : R) :
  spec_entropy_per_step (scen_logits a b) 2 0 0 = ln 2.
Proof.
  unfold spec_entropy_per_step, spec_logprobs.
  cbn [sum_n sadd szero R_Scalar].
  rewrite !scen_probs by lia. rewrite ln_half.
  rewrite spec_safe_term_nonzero by lra. lra.
Qed.


(** The same scenario with [entropy_weight = 1]: the entropy of the valid
    step is [ln 2] too, and the loss is [ln 2 - ln 2 = 0]. *)
Example scenario_loss_with_entropy (a b p q : R) :
  loss_func (scen_logits a b) (scen_ideal p q) scen_R 0 scen_lengths 1 1
  = Ok 0%R.
Proof.
  unfold loss_func.
  destruct (loss_func_body_spec 0 1 1 (scen_valid a b p q)) as [l [-> Hl]].
  simpl bind. f_equal. rewrite (ok_loss Hl).
  unfold spec_loss, spec_loss_gp, spec_loss_entropy, spec_neglogp,
    spec_entropy, spec_entropy_decay_mask.
  cbn [sum_n sadd szero R_Scalar].
  assert (Hm0 : spec_length_mask scen_lengths 0 0 = 1%R) by reflexivity.
  assert (Hm1 : spec_length_mask scen_lengths 1 0 = 0%R) by reflexivity.
  rewrite Hm0, Hm1, scen_neglogp_per_step, scen_entropy_per_step.
  replace (get scen_R [0]) with 1%R by reflexivity.
  replace (INR 1) with 1%R by reflexivity.
  rewrite !pow1. lra.
Qed.

(** ** Shapes that disagree *)

Lemma bdim_incompatible (a b : nat) :
  incompatible a b -> bdim a b = Raise ShapeMismatch.
Proof.
  intros (Hab & Ha & Hb). unfold bdim.
  destruct (Nat.eqb_spec a b); [contradiction |].
  destruct (Nat.eqb_spec a 1); [contradiction |].
  destruct (Nat.eqb_spec b 1); [contradiction | reflexivity].
Qed.

Lemma bdim_raise (a b : nat) (e : exn) :
  bdim a b = Raise e -> e = ShapeMismatch.
Proof.
  unfold bdim.
  destruct (a =? b); [discriminate |].
  destruct (a =? 1); [discriminate |].
  destruct (b =? 1); [discriminate |].
  intros H; injection H as <-. reflexivity.
Qed.

Lemma bdim_ok_left (a b d : nat) : bdim a b = Ok d -> a <> 1 -> d = a.
Proof.
  unfold bdim.
  destruct (Nat.eqb_spec a b); [intros H; injection H as <-; reflexivity |].
  destruct (Nat.eqb_spec a 1); [intros _ H; contradiction |].
  destruct (Nat.eqb_spec b 1); [intros H; injection H as <-; reflexivity |].
  discriminate.
Qed.

Lemma bdim_absorb (a b d : nat) : bdim a b = Ok d -> bdim a d = Ok d.
Proof.
  unfold bdim.
  destruct (Nat.eqb_spec a b) as [-> | Hab].
  - intros H; injection H as <-. rewrite Nat.eqb_refl. reflexivity.
  - destruct (Nat.eqb_spec a 1) as [-> | Ha].
    + intros H; injection H as <-.
      destruct (Nat.eqb_spec 1 b); [contradiction | reflexivity].
    + destruct (Nat.eqb_spec b 1); [| discriminate].
      intros H; injection H as <-. rewrite Nat.eqb_refl. reflexivity.
Qed.

Lemma broadcast_rev_raise (s1 s2 : list nat) (e : exn) :
  broadcast_rev s1 s2 = Raise e -> e = ShapeMismatch.
Proof.
  revert s2; induction s1 as [| a s1 IH]; intros [| b s2]; simpl;
    try discriminate.
  destruct (bdim a b) as [d | e'] eqn:Ed; simpl.
  - destruct (broadcast_rev s1 s2) as [r | e'] eqn:Er; simpl;
      [discriminate |].
    intros H; injection H as <-. exact (IH _ Er).
  - intros H; injection H as <-. exact (bdim_raise _ _ Ed).
Qed.

(** A broadcast operation either raises a shape mismatch or returns a tensor
    of the broadcast shape. *)
Lemma bmap2_cases {A B C : Type} (f : A -> B -> C) (x : tensor A)
    (y : tensor B) :
  match bmap2 f x y with
  | Ok r => broadcast_shapes (shape x) (shape y) = Ok (shape r)
  | Raise e => e = ShapeMismatch
  end.
Proof.
  unfold bmap2, broadcast_shapes.
  destruct (broadcast_rev (rev (shape x)) (rev (shape y))) as [r | e] eqn:E;
    simpl.
  - reflexivity.
  - exact (broadcast_rev_raise _ _ E).
Qed.

Lemma broadcast_shapes_1 (a b : nat) (s : list nat) :
  broadcast_shapes [a] [b] = Ok s -> exists d, bdim a b = Ok d /\ s = [d].
Proof.
  unfold broadcast_shapes; simpl.
  destruct (bdim a b) as [d | e]; simpl; [| discriminate].
  intros H; injection H as <-. exists d. split; reflexivity.
Qed.

Lemma broadcast_shapes_2 (a b a' b' : nat) (s : list nat) :
  broadcast_shapes [a; b] [a'; b'] = Ok s ->
  exists x y, bdim a a' = Ok x /\ bdim b b' = Ok y /\ s = [x; y].
Proof.
  unfold broadcast_shapes; simpl.
  destruct (bdim b b') as [y | e]; simpl; [| discriminate].
  destruct (bdim a a') as [x | e]; simpl; [| discriminate].
  intros H; injection H as <-. exists x, y. repeat split.
Qed.

Lemma broadcast_shapes_3 (a b c a' b' c' : nat) (s : list nat) :
  broadcast_shapes [a; b; c] [a'; b'; c'] = Ok s ->
  exists x y z, bdim a a' = Ok x /\ bdim b b' = Ok y /\ bdim c c' = Ok z /\
                s = [x; y; z].
Proof.
  unfold broadcast_shapes; simpl.
  destruct (bdim c c') as [z | e]; simpl; [| discriminate].
  destruct (bdim b b') as [y | e]; simpl; [| discriminate].
  destruct (bdim a a') as [x | e]; simpl; [| discriminate].
  intros H; injection H as <-. exists x, y, z. repeat split.
Qed.

Lemma broadcast_shapes_3_absorb (a b c a' b' c' x y z : nat) :
  bdim a a' = Ok x -> bdim b b' = Ok y -> bdim c c' = Ok z ->
  broadcast_shapes [a; b; c] [x; y; z] = Ok [x; y; z].
Proof.
  intros Hx Hy Hz. unfold broadcast_shapes; simpl.
  rewrite (bdim_absorb _ _ Hz); simpl.
  rewrite (bdim_absorb _ _ Hy); simpl.
  rewrite (bdim_absorb _ _ Hx); simpl. reflexivity.
Qed.

Lemma np_tile_rows_shape {A : Type} (x : tensor A) (L n : nat) :
  shape x = [L] -> shape (np_tile x [n; 1]) = [n; L].
Proof.
  intros Hs.
  assert (H : is_tensor x [L] (get x)) by (rewrite <- Hs; apply is_tensor_self).
  exact (proj1 (np_tile_rows n H)).
Qed.

(** The shape of the length mask when [lengths] has any length [L]. *)
Lemma mask_length_np_cases (T N L : nat) (lengths : tensor Z) :
  shape lengths = [L] ->
  match mask_length_np T N lengths with
  | Ok m => exists N1, bdim N L = Ok N1 /\ shape m = [T; N1]
  | Raise e => e = ShapeMismatch
  end.
Proof.
  intros Hs. unfold mask_length_np.
  pose proof (bmap2_cases Z.ltb (np_tile (np_arange T) [N; 1])
                (transpose (np_tile lengths [T; 1]))) as Hc.
  destruct (bmap2 Z.ltb _ _) as [m | e]; simpl bind; [| exact Hc].
  rewrite (@np_tile_rows_shape _ (np_arange T) T N) in Hc by reflexivity.
  cbn [transpose shape] in Hc.
  rewrite (@np_tile_rows_shape _ lengths L T Hs) in Hc. cbn [rev app] in Hc.
  destruct (broadcast_shapes_2 _ _ _ _ Hc) as (x & y & Hx & Hy & Hm).
  exists x. split; [exact Hx |].
  cbn [tmap transpose shape]. rewrite Hm. cbn [rev app].
  rewrite bdim_same in Hy. injection Hy as <-. reflexivity.
Qed.

Lemma entropy_decay_mask_np_cases (T N N1 : nat) (gamma_decay : R)
    (m : tensor R) :
  shape m = [T; N1] ->
  match entropy_decay_mask_np T N gamma_decay m with
  | Ok e => exists N2, bdim N N1 = Ok N2 /\ shape e = [T; N2]
  | Raise e => e = ShapeMismatch
  end.
Proof.
  intros Hs. unfold entropy_decay_mask_np.
  pose proof (bmap2_cases Rmult
                (transpose (np_tile (entropy_gamma_decay T gamma_decay)
                              [N; 1])) m) as Hc.
  destruct (bmap2 Rmult _ _) as [e | e]; [| exact Hc].
  cbn [transpose shape] in Hc.
  rewrite (@np_tile_rows_shape _ (entropy_gamma_decay T gamma_decay) T N)
    in Hc by reflexivity.
  rewrite Hs in Hc. cbn [rev app] in Hc.
  destruct (broadcast_shapes_2 _ _ _ _ Hc) as (x & y & Hx & Hy & He).
  rewrite bdim_same in Hx. injection Hx as <-.
  exists y. split; assumption.
Qed.

Lemma softmax_shape_3 (x : tensor R) (a b c : nat) :
  shape x = [a; b; c] ->
  exists r, softmax x 2 = Ok r /\ shape r = [a; b; c].
Proof.
  intros Hs. unfold softmax, rank. rewrite Hs. simpl.
  eexists; split; reflexivity.
Qed.

Lemma log_softmax_shape_3 (x : tensor R) (a b c : nat) :
  shape x = [a; b; c] ->
  exists r, log_softmax x 2 = Ok r /\ shape r = [a; b; c].
Proof.
  intros Hs. unfold log_softmax, rank. rewrite Hs. simpl.
  eexists; split; reflexivity.
Qed.

Lemma safe_cross_entropy_cases (p logq : tensor R) (a b c a' b' c' : nat) :
  shape p = [a; b; c] -> shape logq = [a'; b'; c'] ->
  match safe_cross_entropy p logq 2 with
  | Ok r => exists x y z,
      bdim a a' = Ok x /\ bdim b b' = Ok y /\ bdim c c' = Ok z /\
      shape r = [x; y]
  | Raise e => e = ShapeMismatch
  end.
Proof.
  intros Hp Hq. unfold safe_cross_entropy, where_.
  assert (Ho : is_tensor (ones_like logq) (shape logq) (fun _ => 1%R))
    by (split; [reflexivity | intros; reflexivity]).
  destruct (bmap2_spec pair Ho (is_tensor_self logq)) as [xy [-> [Hxy _]]];
    simpl bind.
  pose proof (bmap2_cases (fun (c0 : bool) (p0 : R * R) =>
                             if c0 then fst p0 else snd p0) (eq_zero p) xy)
    as Hc.
  destruct (bmap2 _ (eq_zero p) xy) as [sl | e]; simpl bind; [| exact Hc].
  cbn [eq_zero tmap shape] in Hc. rewrite Hp, Hxy, Hq in Hc.
  destruct (broadcast_shapes_3 _ _ _ _ _ _ Hc)
    as (x & y & z & Hx & Hy & Hz & Hsl).
  unfold tmul, bmap2. rewrite Hp, Hsl.
  rewrite (@broadcast_shapes_3_absorb a b c a' b' c' x y z Hx Hy Hz);
    simpl bind.
  unfold tsum, rank; simpl.
  exists x, y, z. repeat split; assumption.
Qed.

Lemma tmul_cases_2 (x y : tensor R) (a b a' b' : nat) :
  shape x = [a; b] -> shape y = [a'; b'] ->
  match tmul x y with
  | Ok r => exists u v, bdim a a' = Ok u /\ bdim b b' = Ok v /\
                        shape r = [u; v]
  | Raise e => e = ShapeMismatch
  end.
Proof.
  intros Hx Hy. unfold tmul.
  pose proof (bmap2_cases smul x y) as Hc.
  destruct (bmap2 smul x y) as [r | e]; [| exact Hc].
  rewrite Hx, Hy in Hc.
  destruct (broadcast_shapes_2 _ _ _ _ Hc) as (u & v & Hu & Hv & Hr).
  exists u, v. repeat split; assumption.
Qed.

Lemma tmul_cases_1 (x y : tensor R) (a b : nat) :
  shape x = [a] -> shape y = [b] ->
  match tmul x y with
  | Ok r => exists d, bdim a b = Ok d /\ shape r = [d]
  | Raise e => e = ShapeMismatch
  end.
Proof.
  intros Hx Hy. unfold tmul.
  pose proof (bmap2_cases smul x y) as Hc.
  destruct (bmap2 smul x y) as [r | e]; [| exact Hc].
  rewrite Hx, Hy in Hc.
  destruct (broadcast_shapes_1 _ _ Hc) as (d & Hd & Hr).
  exists d. split; assumption.
Qed.

Lemma tsum_shape_2 (x : tensor R) (a b : nat) :
  shape x = [a; b] -> exists r, tsum x 0 = Ok r /\ shape r = [b].
Proof.
  intros Hs. unfold tsum, rank. rewrite Hs. simpl.
  eexists; split; reflexivity.
Qed.

Lemma incompatible_sym (a b : nat) : incompatible a b -> incompatible b a.
Proof. unfold incompatible. intros (H1 & H2 & H3). repeat split; auto. Qed.

Lemma bdim_ok_compatible (a b d : nat) :
  bdim a b = Ok d -> ~ incompatible a b.
Proof.
  intros Hd Hi. rewrite (bdim_incompatible Hi) in Hd. discriminate.
Qed.





(** * Further properties of the loss *)

(** ** More on sums of reals *)

Lemma sum_n_plus (n : nat) (f g : nat -> R) :
  sum_n n (fun k => (f k + g k)%R) = (sum_n n f + sum_n n g)%R.
Proof.
  induction n as [| n IH]; simpl.
  - lra.
  - rewrite IH. lra.
Qed.

Lemma sum_n_scal_l (n : nat) (a : R) (f : nat -> R) :
  sum_n n (fun k => (a * f k)%R) = (a * sum_n n f)%R.
Proof.
  induction n as [| n IH]; simpl.
  - lra.
  - rewrite IH. lra.
Qed.

Lemma sum_n_div (n : nat) (a : R) (f : nat -> R) :
  sum_n n (fun k => (f k / a)%R) = (sum_n n f / a)%R.
Proof.
  induction n as [| n IH]; simpl.
  - lra.
  - rewrite IH. lra.
Qed.

Lemma sum_n_const (n : nat) (a : R) :
  sum_n n (fun _ => a) = (INR n * a)%R.
Proof.
  induction n as [| n IH].
  - simpl. lra.
  - rewrite S_INR. simpl. rewrite IH. lra.
Qed.

Lemma sum_n_le (n : nat) (f g : nat -> R) :
  (forall k, k < n -> (f k <= g k)%R) -> (sum_n n f <= sum_n n g)%R.
Proof.
  induction n as [| n IH]; simpl; intros Hfg.
  - lra.
  - assert (sum_n n f <= sum_n n g)%R by (apply IH; auto).
    assert (f n <= g n)%R by (apply Hfg; lia). lra.
Qed.

Lemma sum_n_nonneg (n : nat) (f : nat -> R) :
  (forall k, k < n -> (0 <= f k)%R) -> (0 <= sum_n n f)%R.
Proof.
  intros Hf. rewrite <- (@sum_n_zero n (fun _ => 0%R)) by reflexivity.
  apply sum_n_le. exact Hf.
Qed.

Lemma sum_n_term_le (n c : nat) (f : nat -> R) :
  (forall k, k < n -> (0 <= f k)%R) -> c < n -> (f c <= sum_n n f)%R.
Proof.
  induction n as [| n IH]; simpl; intros Hf Hc.
  - lia.
  - assert (H0 : (0 <= sum_n n f)%R) by (apply sum_n_nonneg; auto).
    assert (Hn : (0 <= f n)%R) by (apply Hf; lia).
    destruct (Nat.eq_dec c n) as [-> | Hne]; [lra |].
    assert (f c <= sum_n n f)%R by (apply IH; [auto | lia]). lra.
Qed.

Lemma sum_n_pos (n : nat) (f : nat -> R) :
  0 < n -> (forall k, k < n -> (0 < f k)%R) -> (0 < sum_n n f)%R.
Proof.
  intros Hn Hf.
  apply Rlt_le_trans with (f 0); [apply Hf, Hn |].
  apply sum_n_term_le; [| exact Hn].
  intros k Hk. left. apply Hf, Hk.
Qed.

(** ** The softmax probabilities *)

Lemma spec_probs_denominator_pos (logits_train : tensor R) (C t n : nat) :
  0 < C -> (0 < sum_n C (fun k => exp (get logits_train [t; n; k])))%R.
Proof.
  intros HC. apply sum_n_pos; [exact HC |]. intros k _. apply exp_pos.
Qed.

Lemma spec_probs_pos (logits_train : tensor R) (C t n c : nat) :
  c < C -> (0 < spec_probs logits_train C t n c)%R.
Proof.
  intros Hc. unfold spec_probs. apply Rdiv_lt_0_compat; [apply exp_pos |].
  apply spec_probs_denominator_pos. lia.
Qed.

Lemma spec_probs_sum (logits_train : tensor R) (C t n : nat) :
  0 < C -> sum_n C (spec_probs logits_train C t n) = 1%R.
Proof.
  intros HC. unfold spec_probs.
  rewrite (sum_n_div C _ (fun k => exp (get logits_train [t; n; k]))).
  pose proof (spec_probs_denominator_pos logits_train t n HC) as Hpos.
  field. lra.
Qed.

Lemma spec_probs_le_1 (logits_train : tensor R) (C t n c : nat) :
  c < C -> (spec_probs logits_train C t n c <= 1)%R.
Proof.
  intros Hc. rewrite <- (@spec_probs_sum logits_train C t n) by lia.
  apply (@sum_n_term_le C c (spec_probs logits_train C t n)); [| exact Hc].
  intros k Hk. left. apply spec_probs_pos, Hk.
Qed.

Lemma ln_le_0 (x : R) : (0 < x <= 1)%R -> (ln x <= 0)%R.
Proof.
  intros [Hx [Hlt | ->]].
  - left. rewrite <- ln_1. apply ln_increasing; assumption.
  - rewrite ln_1. lra.
Qed.

Lemma spec_logprobs_le_0 (logits_train : tensor R) (C t n c : nat) :
  c < C -> (spec_logprobs logits_train C t n c <= 0)%R.
Proof.
  intros Hc. unfold spec_logprobs. apply ln_le_0. split.
  - apply spec_probs_pos, Hc.
  - apply spec_probs_le_1, Hc.
Qed.



(** ** The entropy of a step *)

Lemma ln_le_minus_1 (x : R) : (0 < x)%R -> (ln x <= x - 1)%R.
Proof.
  intros Hx. pose proof (exp_ineq1_le (ln x)) as H.
  rewrite (exp_ln x Hx) in H. lra.
Qed.

(** The entropy of a distribution on [C] choices lies between 0 and
    [ln C]. *)
Lemma entropy_bounds (C : nat) (p : nat -> R) :
  0 < C -> (forall c, c < C -> (0 < p c)%R) -> sum_n C p = 1%R ->
  (0 <= - sum_n C (fun c => p c * ln (p c)) <= ln (INR C))%R.
Proof.
  intros HC Hpos Hsum.
  assert (HCr : (0 < INR C)%R) by (apply lt_0_INR; exact HC).
  split.
  - assert (sum_n C (fun c => p c * ln (p c)) <= sum_n C (fun _ => 0))%R.
    { apply sum_n_le. intros c Hc.
      assert (Hp : (0 < p c)%R) by (apply Hpos, Hc).
      assert (Hle : (p c <= 1)%R).
      { rewrite <- Hsum. apply sum_n_term_le; [| exact Hc].
        intros k Hk. left. apply Hpos, Hk. }
      pose proof (ln_le_0 (conj Hp Hle)). nra. }
    rewrite (@sum_n_zero C (fun _ => 0%R)) in H by reflexivity. lra.
  - assert (H : (sum_n C (fun c => - (p c * ln (p c)))
                 <= sum_n C (fun c => ln (INR C) * p c
                                      + (/ INR C + -1 * p c)))%R).
    { apply sum_n_le. intros c Hc.
      assert (Hp : (0 < p c)%R) by (apply Hpos, Hc).
      assert (Hx : (0 < / (INR C * p c))%R)
        by (apply Rinv_0_lt_compat, Rmult_lt_0_compat; assumption).
      pose proof (ln_le_minus_1 Hx) as Hln.
      rewrite ln_Rinv in Hln by (apply Rmult_lt_0_compat; assumption).
      rewrite ln_mult in Hln by assumption.
      rewrite Rinv_mult in Hln.
      assert (Hmul : (p c * (- (ln (INR C) + ln (p c)))
                      <= p c * (/ INR C * / p c - 1))%R)
        by (apply Rmult_le_compat_l; lra).
      replace (p c * (/ INR C * / p c - 1))%R with (/ INR C - p c)%R in Hmul
        by (field; lra).
      lra. }
    rewrite sum_n_plus, sum_n_plus, !sum_n_scal_l, sum_n_const, Hsum in H.
    rewrite (@sum_n_ext R _ C (fun c => (- (p c * ln (p c)))%R)
               (fun c => (-1 * (p c * ln (p c)))%R)) in H
      by (intros; lra).
    rewrite sum_n_scal_l in H.
    replace (INR C * / INR C)%R with 1%R in H by (field; lra).
    lra.
Qed.

Lemma spec_entropy_per_step_plain (logits_train : tensor R) (C t n : nat) :
  spec_entropy_per_step logits_train C t n
  = (- sum_n C (fun c => spec_probs logits_train C t n c
                         * ln (spec_probs logits_train C t n c)))%R.
Proof.
  unfold spec_entropy_per_step, spec_logprobs. f_equal.
  apply sum_n_ext. intros c Hc. apply spec_safe_term_nonzero.
  pose proof (@spec_probs_pos logits_train C t n c Hc). lra.
Qed.

Lemma spec_entropy_per_step_bounds (logits_train : tensor R) (C t n : nat) :
  0 < C ->
  (0 <= spec_entropy_per_step logits_train C t n <= ln (INR C))%R.
Proof.
  intros HC. rewrite spec_entropy_per_step_plain.
  apply entropy_bounds.
  - exact HC.
  - intros c Hc. apply spec_probs_pos, Hc.
  - apply spec_probs_sum, HC.
Qed.

(** X2: on inputs of valid shapes with at least one choice, the entropy of
    every step lies between 0 and ln C. *)
Theorem entropy_per_step_bounds
    (logits_train ideal_probs_train R_train : tensor R) (baseline : R)
    (lengths : tensor Z) (gamma_decay entropy_weight : R) (T N C : nat) :
  valid_shapes logits_train ideal_probs_train R_train lengths T N C ->
  0 < C ->
  exists l,
    loss_func_body logits_train ideal_probs_train R_train baseline lengths
      gamma_decay entropy_weight = Ok l /\
    forall t n, t < T -> n < N ->
      (0 <= get (entropy_per_step l) [t; n] <= ln (INR C))%R.
Proof.
  intros Hv HC.
  destruct (loss_func_body_spec baseline gamma_decay entropy_weight Hv)
    as [l [E Hl]].
  exists l. split; [exact E |].
  destruct (ok_entropy_per_step Hl) as [_ He].
  intros t n Ht Hn. rewrite He by (simpl; tauto). index_simpl.
  apply spec_entropy_per_step_bounds, HC.
Qed.

Lemma entropy_per_step_bounds_witness :
  exists l,
    loss_func_body (scen_logits 3 4) (scen_ideal 0 1) scen_R 0 scen_lengths
      1 1 = Ok l /\
    forall t n, t < 2 -> n < 1 ->
      (0 <= get (entropy_per_step l) [t; n] <= ln (INR 2))%R.
Proof.
  apply (@entropy_per_step_bounds (scen_logits 3 4) (scen_ideal 0 1) scen_R
           0%R scen_lengths 1%R 1%R 2 1 2).
  - repeat split.
  - lia.
Defined.

(** X3: at a step whose logits are all equal, [probs] is uniform, 1/C on
    every choice, and the entropy of the step is ln C, the upper bound. *)
Theorem uniform_logits_entropy
    (logits_train ideal_probs_train R_train : tensor R) (baseline : R)
    (lengths : tensor Z) (gamma_decay entropy_weight : R) (T N C : nat) :
  valid_shapes logits_train ideal_probs_train R_train lengths T N C ->
  0 < C ->
  exists l,
    loss_func_body logits_train ideal_probs_train R_train baseline lengths
      gamma_decay entropy_weight = Ok l /\
    forall t n v, t < T -> n < N ->
      (forall c, c < C -> get logits_train [t; n; c] = v) ->
      (forall c, c < C -> get (probs l) [t; n; c] = (/ INR C)%R) /\
      get (entropy_per_step l) [t; n] = ln (INR C).
Proof.
  intros Hv HC.
  destruct (loss_func_body_spec baseline gamma_decay entropy_weight Hv)
    as [l [E Hl]].
  exists l. split; [exact E |].
  destruct (ok_entropy_per_step Hl) as [_ He].
  destruct (ok_probs Hl) as [_ Hp].
  intros t n v Ht Hn Hv'.
  assert (HCr : (0 < INR C)%R) by (apply lt_0_INR; exact HC).
  assert (Hprobs : forall c, c < C ->
             spec_probs logits_train C t n c = (/ INR C)%R).
  { intros c Hc. unfold spec_probs.
    rewrite (@sum_n_ext R _ C (fun k => exp (get logits_train [t; n; k]))
               (fun _ => exp v)) by (intros k Hk; rewrite Hv'; auto).
    rewrite sum_n_const, (Hv' c Hc).
    pose proof (exp_pos v). field. lra. }
  split.
  - intros c Hc. rewrite Hp by (simpl; tauto). index_simpl.
    apply Hprobs, Hc.
  - rewrite He by (simpl; tauto). index_simpl.
    rewrite spec_entropy_per_step_plain.
    rewrite (@sum_n_ext R _ C
               (fun c => (spec_probs logits_train C t n c
                          * ln (spec_probs logits_train C t n c))%R)
               (fun _ => (/ INR C * ln (/ INR C))%R))
      by (intros c Hc; rewrite Hprobs by exact Hc; reflexivity).
    rewrite sum_n_const, ln_Rinv by exact HCr.
    field. lra.
Qed.

Lemma uniform_logits_entropy_witness :
  exists l,
    loss_func_body (scen_logits 3 4) (scen_ideal 0 1) scen_R 0 scen_lengths
      1 1 = Ok l /\
    forall t n v, t < 2 -> n < 1 ->
      (forall c, c < 2 -> get (scen_logits 3 4) [t; n; c] = v) ->
      (forall c, c < 2 -> get (probs l) [t; n; c] = (/ INR 2)%R) /\
      get (entropy_per_step l) [t; n] = ln (INR 2).
Proof.
  apply (@uniform_logits_entropy (scen_logits 3 4) (scen_ideal 0 1) scen_R
           0%R scen_lengths 1%R 1%R 2 1 2).
  - repeat split.
  - lia.
Defined.

(** ** Logits that give the same probabilities *)

Section ProbsAgree.

Variables logits1 logits2 ideal_probs_train R_train : tensor R.
Variable baseline : R.
Variable lengths : tensor Z.
Variables gamma_decay entropy_weight : R.
Variables T N C : nat.

Hypothesis Hprobs :
  forall t n c, t < T -> n < N -> c < C ->
    spec_probs logits1 C t n c = spec_probs logits2 C t n c.

Lemma probs_agree_neglogp_per_step (t n : nat) :
  t < T -> n < N ->
  spec_neglogp_per_step logits1 ideal_probs_train C t n
  = spec_neglogp_per_step logits2 ideal_probs_train C t n.
Proof.
  intros Ht Hn. unfold spec_neglogp_per_step, spec_logprobs. f_equal.
  apply sum_n_ext. intros c Hc. rewrite (Hprobs Ht Hn Hc). reflexivity.
Qed.

Lemma probs_agree_entropy_per_step (t n : nat) :
  t < T -> n < N ->
  spec_entropy_per_step logits1 C t n = spec_entropy_per_step logits2 C t n.
Proof.
  intros Ht Hn. unfold spec_entropy_per_step, spec_logprobs. f_equal.
  apply sum_n_ext. intros c Hc. rewrite (Hprobs Ht Hn Hc). reflexivity.
Qed.

Lemma probs_agree_loss :
  spec_loss logits1 ideal_probs_train R_train baseline lengths gamma_decay
    entropy_weight T N C
  = spec_loss logits2 ideal_probs_train R_train baseline lengths gamma_decay
      entropy_weight T N C.
Proof.
  unfold spec_loss, spec_loss_gp, spec_loss_entropy.
  rewrite (@sum_n_ext R _ N
             (fun n => ((get R_train [n] - baseline)
                        * spec_neglogp logits1 ideal_probs_train lengths
                            T C n)%R)
             (fun n => ((get R_train [n] - baseline)
                        * spec_neglogp logits2 ideal_probs_train lengths
                            T C n)%R)).
  - rewrite (@sum_n_ext R _ N
               (spec_entropy logits1 lengths gamma_decay T C)
               (spec_entropy logits2 lengths gamma_decay T C)).
    + reflexivity.
    + intros n Hn. unfold spec_entropy. apply sum_n_ext. intros t Ht.
      rewrite (probs_agree_entropy_per_step Ht Hn). reflexivity.
  - intros n Hn. f_equal. unfold spec_neglogp. apply sum_n_ext.
    intros t Ht. rewrite (probs_agree_neglogp_per_step Ht Hn). reflexivity.
Qed.

End ProbsAgree.

Lemma spec_probs_shift (logits1 logits2 : tensor R) (C t n c : nat) (k : R) :
  c < C ->
  (forall j, j < C ->
     get logits2 [t; n; j] = (get logits1 [t; n; j] + k)%R) ->
  spec_probs logits1 C t n c = spec_probs logits2 C t n c.
Proof.
  intros Hc Hshift. unfold spec_probs.
  rewrite (@sum_n_ext R _ C (fun j => exp (get logits2 [t; n; j]))
             (fun j => (exp k * exp (get logits1 [t; n; j]))%R)).
  - rewrite sum_n_scal_l, (Hshift c Hc), exp_plus.
    assert (0 < sum_n C (fun j => exp (get logits1 [t; n; j])))%R
      by (apply spec_probs_denominator_pos; lia).
    pose proof (exp_pos k). field. split; lra.
  - intros j Hj. rewrite (Hshift j Hj), exp_plus. lra.
Qed.

(** X4: the loss only sees the logits through their softmax: adding to the
    logits of each step of each sample a constant [k t n], the same for all
    the choices, changes neither [probs] nor the returned loss. *)
Theorem logits_shift_invariance
    (logits1 logits2 ideal_probs_train R_train : tensor R) (baseline : R)
    (lengths : tensor Z) (gamma_decay entropy_weight : R) (T N C : nat)
    (k : nat -> nat -> R) :
  valid_shapes logits1 ideal_probs_train R_train lengths T N C ->
  valid_shapes logits2 ideal_probs_train R_train lengths T N C ->
  (forall t n c, t < T -> n < N -> c < C ->
     get logits2 [t; n; c] = (get logits1 [t; n; c] + k t n)%R) ->
  exists l1 l2 v,
    loss_func_body logits1 ideal_probs_train R_train baseline lengths
      gamma_decay entropy_weight = Ok l1 /\
    loss_func_body logits2 ideal_probs_train R_train baseline lengths
      gamma_decay entropy_weight = Ok l2 /\
    (forall t n c, t < T -> n < N -> c < C ->
       get (probs l1) [t; n; c] = get (probs l2) [t; n; c]) /\
    loss_func logits1 ideal_probs_train R_train baseline lengths
      gamma_decay entropy_weight = Ok v /\
    loss_func logits2 ideal_probs_train R_train baseline lengths
      gamma_decay entropy_weight = Ok v.
Proof.
  intros Hv1 Hv2 Hshift. unfold loss_func.
  destruct (loss_func_body_spec baseline gamma_decay entropy_weight Hv1)
    as [l1 [E1 H1]].
  destruct (loss_func_body_spec baseline gamma_decay entropy_weight Hv2)
    as [l2 [E2 H2]].
  exists l1, l2, (loss l1). rewrite E1, E2; simpl.
  assert (Hprobs : forall t n c, t < T -> n < N -> c < C ->
             spec_probs logits1 C t n c = spec_probs logits2 C t n c).
  { intros t n c Ht Hn Hc. apply spec_probs_shift with (k := k t n).
    - exact Hc.
    - intros j Hj. apply Hshift; assumption. }
  repeat split; try reflexivity.
  - intros t n c Ht Hn Hc.
    destruct (ok_probs H1) as [_ Hp1]. destruct (ok_probs H2) as [_ Hp2].
    rewrite Hp1, Hp2 by (simpl; tauto). index_simpl.
    apply Hprobs; assumption.
  - f_equal. rewrite (ok_loss H1), (ok_loss H2). symmetry.
    apply probs_agree_loss. exact Hprobs.
Qed.

Lemma logits_shift_invariance_witness :
  exists l1 l2 v,
    loss_func_body (scen_logits 3 4) (scen_ideal 0 1) scen_R 0 scen_lengths
      1 1 = Ok l1 /\
    loss_func_body
      (of_list3 2 1 2 [[[5%R; 5%R]]; [[8%R; 9%R]]]) (scen_ideal 0 1) scen_R 0
      scen_lengths 1 1 = Ok l2 /\
    (forall t n c, t < 2 -> n < 1 -> c < 2 ->
       get (probs l1) [t; n; c] = get (probs l2) [t; n; c]) /\
    loss_func (scen_logits 3 4) (scen_ideal 0 1) scen_R 0 scen_lengths 1 1
    = Ok v /\
    loss_func (of_list3 2 1 2 [[[5%R; 5%R]]; [[8%R; 9%R]]]) (scen_ideal 0 1)
      scen_R 0 scen_lengths 1 1 = Ok v.
Proof.
  apply (@logits_shift_invariance (scen_logits 3 4)
           (of_list3 2 1 2 [[[5%R; 5%R]]; [[8%R; 9%R]]]) (scen_ideal 0 1)
           scen_R 0%R scen_lengths 1%R 1%R 2 1 2 (fun _ _ => 5%R)).
  - repeat split.
  - repeat split.
  - intros t n c Ht Hn Hc.
    destruct n as [| n]; [| lia].
    destruct t as [| [| t]]; [| | lia];
      (destruct c as [| [| c]]; [| | lia]); simpl; lra.
Defined.

(** ** Signs of the two terms *)

Lemma spec_length_mask_cases (lengths : tensor Z) (t n : nat) :
  spec_length_mask lengths t n = 0%R \/ spec_length_mask lengths t n = 1%R.
Proof.
  unfold spec_length_mask.
  destruct (Z.of_nat t <? get lengths [n])%Z; [right | left]; reflexivity.
Qed.

Lemma spec_neglogp_per_step_nonneg
    (logits_train ideal_probs_train : tensor R) (C t n : nat) :
  (forall c, c < C -> (0 <= get ideal_probs_train [t; n; c])%R) ->
  (0 <= spec_neglogp_per_step logits_train ideal_probs_train C t n)%R.
Proof.
  intros Hp. unfold spec_neglogp_per_step.
  assert (H : (sum_n C (fun c =>
                 spec_safe_term (get ideal_probs_train [t; n; c])
                   (spec_logprobs logits_train C t n c))
               <= sum_n C (fun _ => 0))%R).
  { apply sum_n_le. intros c Hc.
    destruct (Req_dec_T (get ideal_probs_train [t; n; c]) 0) as [E | E].
    - rewrite E, spec_safe_term_zero. lra.
    - rewrite spec_safe_term_nonzero by exact E.
      pose proof (Hp c Hc).
      pose proof (@spec_logprobs_le_0 logits_train C t n c Hc). nra. }
  rewrite (@sum_n_zero C (fun _ => 0%R)) in H by reflexivity. lra.
Qed.



(** X6: with a non-negative [gamma_decay] the entropy of every sample is
    non-negative, and with a non-negative [entropy_weight] the entropy term
    [loss_entropy] can only lower the loss: it is never positive. *)
Theorem entropy_term_sign
    (logits_train ideal_probs_train R_train : tensor R) (baseline : R)
    (lengths : tensor Z) (gamma_decay entropy_weight : R) (T N C : nat) :
  valid_shapes logits_train ideal_probs_train R_train lengths T N C ->
  0 < N -> 0 < C -> (0 <= gamma_decay)%R ->
  exists l,
    loss_func_body logits_train ideal_probs_train R_train baseline lengths
      gamma_decay entropy_weight = Ok l /\
    (forall n, n < N -> (0 <= get (entropy l) [n])%R) /\
    ((0 <= entropy_weight)%R ->
     (loss_entropy l <= 0)%R /\ (loss l <= loss_gp l)%R).
Proof.
  intros Hv HN HC Hg.
  destruct (loss_func_body_spec baseline gamma_decay entropy_weight Hv)
    as [l [E Hl]].
  exists l. split; [exact E |].
  destruct (ok_entropy Hl) as [_ Hent].
  assert (Hent0 : forall n, n < N ->
             (0 <= spec_entropy logits_train lengths gamma_decay T C n)%R).
  { intros n Hn. unfold spec_entropy. apply sum_n_nonneg. intros t Ht.
    pose proof (@spec_entropy_per_step_bounds logits_train C t n HC)
      as [Hlo _].
    apply Rmult_le_pos; [exact Hlo |].
    unfold spec_entropy_decay_mask. apply Rmult_le_pos.
    - apply pow_le, Hg.
    - destruct (spec_length_mask_cases lengths t n) as [-> | ->]; lra. }
  split.
  - intros n Hn. rewrite Hent by (simpl; tauto). index_simpl.
    apply Hent0, Hn.
  - intros Hw.
    assert (Hle : (loss_entropy l <= 0)%R).
    { rewrite (ok_loss_entropy Hl). unfold spec_loss_entropy.
      assert (0 <= sum_n N (spec_entropy logits_train lengths gamma_decay
                              T C) / INR N)%R.
      { apply Rmult_le_pos; [apply sum_n_nonneg, Hent0 |].
        left. apply Rinv_0_lt_compat, lt_0_INR, HN. }
      nra. }
    split; [exact Hle |].
    rewrite (ok_loss Hl). unfold spec_loss.
    rewrite <- (ok_loss_gp Hl), <- (ok_loss_entropy Hl). lra.
Qed.

Lemma entropy_term_sign_witness :
  exists l,
    loss_func_body (scen_logits 3 4) (scen_ideal 0 1) scen_R 0 scen_lengths
      1 1 = Ok l /\
    (forall n, n < 1 -> (0 <= get (entropy l) [n])%R) /\
    ((0 <= 1)%R -> (loss_entropy l <= 0)%R /\ (loss l <= loss_gp l)%R).
Proof.
  apply (@entropy_term_sign (scen_logits 3 4) (scen_ideal 0 1) scen_R 0%R
           scen_lengths 1%R 1%R 2 1 2).
  - repeat split.
  - lia.
  - lia.
  - lra.
Defined.

(** ** The loss as a function of the baseline and the entropy weight *)



(** ** Lengths outside the time axis *)

Lemma spec_length_mask_clamp (lengths : tensor Z) (T t n : nat) :
  t < T ->
  spec_length_mask lengths t n
  = if (Z.of_nat t <? clamp_length T (get lengths [n]))%Z then 1%R else 0%R.
Proof.
  intros Ht. unfold spec_length_mask, clamp_length.
  destruct (Z.ltb_spec (Z.of_nat t) (get lengths [n]));
    destruct (Z.ltb_spec (Z.of_nat t)
                (Z.min (Z.max (get lengths [n]) 0) (Z.of_nat T)));
    try reflexivity; lia.
Qed.

Lemma spec_length_mask_sum (lengths : tensor Z) (T n : nat) :
  sum_n T (fun t => spec_length_mask lengths t n)
  = IZR (clamp_length T (get lengths [n])).
Proof.
  induction T as [| T IH].
  - simpl. unfold clamp_length. f_equal. lia.
  - cbn [sum_n sadd R_Scalar]. rewrite IH.
    unfold spec_length_mask, clamp_length.
    destruct (Z.ltb_spec (Z.of_nat T) (get lengths [n])) as [Hlt | Hge].
    + rewrite <- plus_IZR. f_equal. lia.
    + rewrite Rplus_0_r. f_equal. lia.
Qed.

Section MasksAgree.

Variables logits_train ideal_probs_train R_train : tensor R.
Variable baseline : R.
Variables lengths1 lengths2 : tensor Z.
Variables gamma_decay entropy_weight : R.
Variables T N C : nat.

Hypothesis Hmask :
  forall t n, t < T -> n < N ->
    spec_length_mask lengths1 t n = spec_length_mask lengths2 t n.

Lemma masks_agree_loss :
  spec_loss logits_train ideal_probs_train R_train baseline lengths1
    gamma_decay entropy_weight T N C
  = spec_loss logits_train ideal_probs_train R_train baseline lengths2
      gamma_decay entropy_weight T N C.
Proof.
  unfold spec_loss, spec_loss_gp, spec_loss_entropy.
  rewrite (@sum_n_ext R _ N
             (fun n => ((get R_train [n] - baseline)
                        * spec_neglogp logits_train ideal_probs_train
                            lengths1 T C n)%R)
             (fun n => ((get R_train [n] - baseline)
                        * spec_neglogp logits_train ideal_probs_train
                            lengths2 T C n)%R)).
  - rewrite (@sum_n_ext R _ N
               (spec_entropy logits_train lengths1 gamma_decay T C)
               (spec_entropy logits_train lengths2 gamma_decay T C)).
    + reflexivity.
    + intros n Hn. unfold spec_entropy. apply sum_n_ext. intros t Ht.
      unfold spec_entropy_decay_mask. rewrite (Hmask Ht Hn). reflexivity.
  - intros n Hn. f_equal. unfold spec_neglogp. apply sum_n_ext.
    intros t Ht. rewrite (Hmask Ht Hn). reflexivity.
Qed.

End MasksAgree.

(** X8: a length outside the time axis is not an error: a negative length
    acts as 0 and a length above T as T.  Two [lengths] with the same
    clamped values give the same mask and the same loss. *)
Theorem lengths_are_clamped
    (logits_train ideal_probs_train R_train : tensor R) (baseline : R)
    (lengths1 lengths2 : tensor Z) (gamma_decay entropy_weight : R)
    (T N C : nat) :
  valid_shapes logits_train ideal_probs_train R_train lengths1 T N C ->
  valid_shapes logits_train ideal_probs_train R_train lengths2 T N C ->
  (forall n, n < N ->
     clamp_length T (get lengths1 [n]) = clamp_length T (get lengths2 [n])) ->
  exists l1 l2 v,
    loss_func_body logits_train ideal_probs_train R_train baseline lengths1
      gamma_decay entropy_weight = Ok l1 /\
    loss_func_body logits_train ideal_probs_train R_train baseline lengths2
      gamma_decay entropy_weight = Ok l2 /\
    (forall t n, t < T -> n < N ->
       get (mask_length l1) [t; n] = get (mask_length l2) [t; n]) /\
    loss_func logits_train ideal_probs_train R_train baseline lengths1
      gamma_decay entropy_weight = Ok v /\
    loss_func logits_train ideal_probs_train R_train baseline lengths2
      gamma_decay entropy_weight = Ok v.
Proof.
  intros Hv1 Hv2 Hclamp. unfold loss_func.
  destruct (loss_func_body_spec baseline gamma_decay entropy_weight Hv1)
    as [l1 [E1 H1]].
  destruct (loss_func_body_spec baseline gamma_decay entropy_weight Hv2)
    as [l2 [E2 H2]].
  exists l1, l2, (loss l1). rewrite E1, E2; simpl.
  assert (Hmask : forall t n, t < T -> n < N ->
             spec_length_mask lengths1 t n = spec_length_mask lengths2 t n).
  { intros t n Ht Hn.
    rewrite !(@spec_length_mask_clamp _ T t n Ht), (Hclamp n Hn).
    reflexivity. }
  repeat split; try reflexivity.
  - intros t n Ht Hn.
    destruct (ok_mask_length H1) as [_ Hm1].
    destruct (ok_mask_length H2) as [_ Hm2].
    rewrite Hm1, Hm2 by (simpl; tauto). index_simpl.
    apply Hmask; assumption.
  - f_equal. rewrite (ok_loss H1), (ok_loss H2). symmetry.
    apply masks_agree_loss. exact Hmask.
Qed.

Lemma lengths_are_clamped_witness :
  exists l1 l2 v,
    loss_func_body (scen_logits 3 4) (scen_ideal 0 1) scen_R 0
      (of_list1 0%Z [7%Z]) 1 1 = Ok l1 /\
    loss_func_body (scen_logits 3 4) (scen_ideal 0 1) scen_R 0
      (of_list1 0%Z [2%Z]) 1 1 = Ok l2 /\
    (forall t n, t < 2 -> n < 1 ->
       get (mask_length l1) [t; n] = get (mask_length l2) [t; n]) /\
    loss_func (scen_logits 3 4) (scen_ideal 0 1) scen_R 0
      (of_list1 0%Z [7%Z]) 1 1 = Ok v /\
    loss_func (scen_logits 3 4) (scen_ideal 0 1) scen_R 0
      (of_list1 0%Z [2%Z]) 1 1 = Ok v.
Proof.
  apply (@lengths_are_clamped (scen_logits 3 4) (scen_ideal 0 1) scen_R 0%R
           (of_list1 0%Z [7%Z]) (of_list1 0%Z [2%Z]) 1%R 1%R 2 1 2).
  - repeat split.
  - repeat split.
  - intros n Hn. destruct n as [| n]; [reflexivity | lia].
Defined.

(** X9: the mask of a sample is a prefix of ones: if step [t] is kept then
    so is every earlier step, and the number of steps kept is the length of
    the sample clamped to the range 0..T. *)
Theorem mask_length_is_prefix (T N : nat) (lengths : tensor Z) :
  shape lengths = [N] ->
  exists m,
    mask_length_np T N lengths = Ok m /\
    forall n, n < N ->
      (forall t t', t' <= t -> t < T ->
         get m [t; n] = 1%R -> get m [t'; n] = 1%R) /\
      sum_n T (fun t => get m [t; n])
      = IZR (clamp_length T (get lengths [n])).
Proof.
  intros Hs.
  destruct (mask_length_np_spec T lengths Hs) as [m [Em [_ Hg]]].
  exists m. split; [exact Em |].
  intros n Hn. split.
  - intros t t' Hle Ht.
    rewrite !Hg by (simpl; split; [lia | tauto]). index_simpl.
    unfold spec_length_mask.
    destruct (Z.ltb_spec (Z.of_nat t) (get lengths [n])) as [Hlt | Hge];
      [| intros H; lra].
    intros _.
    destruct (Z.ltb_spec (Z.of_nat t') (get lengths [n])); [reflexivity | lia].
  - rewrite <- spec_length_mask_sum. apply sum_n_ext. intros t Ht.
    rewrite Hg by (simpl; tauto). reflexivity.
Qed.

Lemma mask_length_is_prefix_witness :
  exists m,
    mask_length_np 3 2 (of_list1 0%Z [2%Z; 9%Z]) = Ok m /\
    forall n, n < 2 ->
      (forall t t', t' <= t -> t < 3 ->
         get m [t; n] = 1%R -> get m [t'; n] = 1%R) /\
      sum_n 3 (fun t => get m [t; n])
      = IZR (clamp_length 3 (get (of_list1 0%Z [2%Z; 9%Z]) [n])).
Proof.
  apply (@mask_length_is_prefix 3 2 (of_list1 0%Z [2%Z; 9%Z])).
  reflexivity.
Defined.

(** ** Edge values of the decay and of the time axis *)

(** X10: with [gamma_decay = 0] only the first step counts in the entropy
    (0 to the power 0 is 1): the entropy mask is the length mask at step 0
    and 0 at every later step, and the entropy of a sample is the entropy
    of its first step times the mask there. *)
Theorem zero_gamma_decay_keeps_first_step
    (logits_train ideal_probs_train R_train : tensor R) (baseline : R)
    (lengths : tensor Z) (entropy_weight : R) (T N C : nat) :
  valid_shapes logits_train ideal_probs_train R_train lengths T N C ->
  0 < T ->
  exists l,
    loss_func_body logits_train ideal_probs_train R_train baseline lengths
      0 entropy_weight = Ok l /\
    forall n, n < N ->
      get (entropy_decay_mask l) [0; n] = get (mask_length l) [0; n] /\
      (forall t, 0 < t -> t < T -> get (entropy_decay_mask l) [t; n] = 0%R) /\
      get (entropy l) [n]
      = (get (entropy_per_step l) [0%nat; n]
         * get (mask_length l) [0%nat; n])%R.
Proof.
  intros Hv HT.
  destruct (loss_func_body_spec baseline 0 entropy_weight Hv) as [l [E Hl]].
  exists l. split; [exact E |].
  destruct (ok_mask_length Hl) as [_ Hm].
  destruct (ok_entropy_decay_mask Hl) as [_ He].
  destruct (ok_entropy_per_step Hl) as [_ Heps].
  destruct (ok_entropy Hl) as [_ Hent].
  intros n Hn. split; [| split].
  - rewrite He, Hm by (simpl; tauto). index_simpl.
    unfold spec_entropy_decay_mask. simpl pow. lra.
  - intros t Ht0 Ht. rewrite He by (simpl; tauto). index_simpl.
    unfold spec_entropy_decay_mask. rewrite pow_i by exact Ht0. lra.
  - rewrite Hent, Heps, Hm by (simpl; tauto). index_simpl.
    unfold spec_entropy. rewrite (@sum_n_single T 0).
    + unfold spec_entropy_decay_mask. simpl pow. lra.
    + exact HT.
    + intros t Ht Hne. unfold spec_entropy_decay_mask.
      rewrite pow_i by lia. lra.
Qed.

Lemma zero_gamma_decay_keeps_first_step_witness :
  exists l,
    loss_func_body (scen_logits 3 4) (scen_ideal 0 1) scen_R 0 scen_lengths
      0 1 = Ok l /\
    forall n, n < 1 ->
      get (entropy_decay_mask l) [0; n] = get (mask_length l) [0; n] /\
      (forall t, 0 < t -> t < 2 -> get (entropy_decay_mask l) [t; n] = 0%R) /\
      get (entropy l) [n]
      = (get (entropy_per_step l) [0%nat; n]
         * get (mask_length l) [0%nat; n])%R.
Proof.
  apply (@zero_gamma_decay_keeps_first_step (scen_logits 3 4)
           (scen_ideal 0 1) scen_R 0%R scen_lengths 1%R 2 1 2).
  - repeat split.
  - lia.
Defined.

(** X11: an empty time axis is not an error: with T = 0 (and at least one
    sample) every sample has [neglogp] and [entropy] 0 and the loss
    returned is 0, whatever the rewards, the baseline and the weights. *)
Theorem empty_time_axis_gives_zero
    (logits_train ideal_probs_train R_train : tensor R) (baseline : R)
    (lengths : tensor Z) (gamma_decay entropy_weight : R) (N C : nat) :
  valid_shapes logits_train ideal_probs_train R_train lengths 0 N C ->
  0 < N ->
  exists l,
    loss_func_body logits_train ideal_probs_train R_train baseline lengths
      gamma_decay entropy_weight = Ok l /\
    (forall n, n < N ->
       get (neglogp l) [n] = 0%R /\ get (entropy l) [n] = 0%R) /\
    loss_func logits_train ideal_probs_train R_train baseline lengths
      gamma_decay entropy_weight = Ok 0%R.
Proof.
  intros Hv HN. unfold loss_func.
  destruct (loss_func_body_spec baseline gamma_decay entropy_weight Hv)
    as [l [E Hl]].
  exists l. rewrite E; simpl bind. split; [reflexivity |].
  destruct (ok_neglogp Hl) as [_ Hneg]. destruct (ok_entropy Hl) as [_ Hent].
  split.
  - intros n Hn. rewrite Hneg, Hent by (simpl; tauto). split; reflexivity.
  - f_equal. rewrite (ok_loss Hl).
    unfold spec_loss, spec_loss_gp, spec_loss_entropy.
    rewrite (@sum_n_zero N
               (fun n => ((get R_train [n] - baseline)
                          * spec_neglogp logits_train ideal_probs_train
                              lengths 0 C n)%R))
      by (intros n Hn; unfold spec_neglogp; simpl; lra).
    rewrite (@sum_n_zero N (spec_entropy logits_train lengths gamma_decay
                              0 C))
      by (intros n Hn; reflexivity).
    lra.
Qed.

Lemma empty_time_axis_gives_zero_witness :
  exists l,
    loss_func_body (of_list3 0 1 2 []) (of_list3 0 1 2 []) scen_R 5
      scen_lengths 2 3 = Ok l /\
    (forall n, n < 1 ->
       get (neglogp l) [n] = 0%R /\ get (entropy l) [n] = 0%R) /\
    loss_func (of_list3 0 1 2 []) (of_list3 0 1 2 []) scen_R 5 scen_lengths
      2 3 = Ok 0%R.
Proof.
  apply (@empty_time_axis_gives_zero (of_list3 0 1 2 []) (of_list3 0 1 2 [])
           scen_R 5%R scen_lengths 2%R 3%R 1 2).
  - repeat split.
  - lia.
Defined.

(** ** What a sample's terms depend on *)



(** X13: the samples of a batch do not interact before the two means:
    [neglogp[n]] and [entropy[n]] depend on the logits, the targets and the
    length of sample [n] only.  Two calls whose inputs agree on sample [n]
    (and on [gamma_decay]) give the same two values for it, whatever the
    other samples, the rewards, the baseline and the entropy weight. *)
Theorem samples_are_independent
    (logits1 ideal1 R1 logits2 ideal2 R2 : tensor R) (baseline1 baseline2 : R)
    (lengths1 lengths2 : tensor Z) (gamma_decay weight1 weight2 : R)
    (T N C n : nat) :
  valid_shapes logits1 ideal1 R1 lengths1 T N C ->
  valid_shapes logits2 ideal2 R2 lengths2 T N C ->
  n < N ->
  get lengths1 [n] = get lengths2 [n] ->
  (forall t c, t < T -> c < C ->
     get logits1 [t; n; c] = get logits2 [t; n; c] /\
     get ideal1 [t; n; c] = get ideal2 [t; n; c]) ->
  exists l1 l2,
    loss_func_body logits1 ideal1 R1 baseline1 lengths1 gamma_decay weight1
    = Ok l1 /\
    loss_func_body logits2 ideal2 R2 baseline2 lengths2 gamma_decay weight2
    = Ok l2 /\
    get (neglogp l1) [n] = get (neglogp l2) [n] /\
    get (entropy l1) [n] = get (entropy l2) [n].
Proof.
  intros Hv1 Hv2 Hn Hlen Hsame.
  destruct (loss_func_body_spec baseline1 gamma_decay weight1 Hv1)
    as [l1 [E1 H1]].
  destruct (loss_func_body_spec baseline2 gamma_decay weight2 Hv2)
    as [l2 [E2 H2]].
  exists l1, l2. split; [exact E1 |]. split; [exact E2 |].
  assert (Hprobs : forall t c, t < T -> c < C ->
             spec_probs logits1 C t n c = spec_probs logits2 C t n c).
  { intros t c Ht Hc. unfold spec_probs.
    rewrite (proj1 (Hsame t c Ht Hc)).
    rewrite (@sum_n_ext R _ C (fun k => exp (get logits1 [t; n; k]))
               (fun k => exp (get logits2 [t; n; k]))); [reflexivity |].
    intros k Hk. rewrite (proj1 (Hsame t k Ht Hk)). reflexivity. }
  assert (Hmask : forall t,
             spec_length_mask lengths1 t n = spec_length_mask lengths2 t n)
    by (intros t; unfold spec_length_mask; rewrite Hlen; reflexivity).
  destruct (ok_neglogp H1) as [_ Hg1]. destruct (ok_neglogp H2) as [_ Hg2].
  destruct (ok_entropy H1) as [_ Hh1]. destruct (ok_entropy H2) as [_ Hh2].
  rewrite Hg1, Hg2, Hh1, Hh2 by (simpl; tauto). index_simpl.
  split.
  - unfold spec_neglogp. apply sum_n_ext. intros t Ht.
    rewrite Hmask. f_equal.
    unfold spec_neglogp_per_step, spec_logprobs. f_equal.
    apply sum_n_ext. intros c Hc.
    rewrite (Hprobs t c Ht Hc), (proj2 (Hsame t c Ht Hc)). reflexivity.
  - unfold spec_entropy. apply sum_n_ext. intros t Ht.
    unfold spec_entropy_decay_mask. rewrite Hmask. f_equal.
    unfold spec_entropy_per_step, spec_logprobs. f_equal.
    apply sum_n_ext. intros c Hc. rewrite (Hprobs t c Ht Hc). reflexivity.
Qed.

Lemma samples_are_independent_witness :
  exists l1 l2,
    loss_func_body bc_logits bc_ideal (of_list1 0%R [1%R; 2%R]) 0 bc_lengths
      1 1 = Ok l1 /\
    loss_func_body (of_list3 1 2 2 [[[0%R; 0%R]; [7%R; 8%R]]]) bc_ideal
      (of_list1 0%R [3%R; 4%R]) 5 (of_list1 0%Z [1%Z; 0%Z]) 1 6 = Ok l2 /\
    get (neglogp l1) [0] = get (neglogp l2) [0] /\
    get (entropy l1) [0] = get (entropy l2) [0].
Proof.
  apply (@samples_are_independent bc_logits bc_ideal
           (of_list1 0%R [1%R; 2%R])
           (of_list3 1 2 2 [[[0%R; 0%R]; [7%R; 8%R]]]) bc_ideal
           (of_list1 0%R [3%R; 4%R]) 0%R 5%R bc_lengths
           (of_list1 0%Z [1%Z; 0%Z]) 1%R 1%R 6%R 1 2 2 0).
  - repeat split.
  - repeat split.
  - lia.
  - reflexivity.
  - intros t c Ht Hc.
    destruct t as [| t]; [| lia].
    destruct c as [| [| c]]; [| | lia]; split; reflexivity.
Defined.

(** ** Rewards that are broadcast *)

(** Everything [loss_func] computes before it reads the rewards, and what
    is left of its body after that. *)
Lemma loss_func_body_rewards_tail
    (logits_train ideal_probs_train : tensor R) (lengths : tensor Z)
    (gamma_decay : R) (T N C : nat) :
  shape ideal_probs_train = [T; N; C] ->
  shape logits_train = [T; N; C] ->
  shape lengths = [N] ->
  exists m e p lp nps nl eps en,
    is_tensor nl [N]
      (fun idx => spec_neglogp logits_train ideal_probs_train lengths T C
                    (ix idx 0)) /\
    is_tensor en [N]
      (fun idx => spec_entropy logits_train lengths gamma_decay T C
                    (ix idx 0)) /\
    forall (R_train : tensor R) (baseline entropy_weight : R),
      loss_func_body logits_train ideal_probs_train R_train baseline lengths
        gamma_decay entropy_weight
      = (gprod <- tmul (tmap (fun r => (r - baseline)%R) R_train) nl ;;
         Ok (mkLocals m e p lp nps nl (mean gprod) eps en
               (- entropy_weight * mean en)
               (mean gprod + - entropy_weight * mean en))).
Proof.
  intros Hi Hx Hl.
  destruct (mask_length_np_spec T lengths Hl) as [m [Em Hm]].
  destruct (entropy_decay_mask_np_spec gamma_decay Hm) as [e [Ee He]].
  assert (Hideal : is_tensor ideal_probs_train [T; N; C]
                     (get ideal_probs_train))
    by (rewrite <- Hi; apply is_tensor_self).
  assert (Hlogits : is_tensor logits_train [T; N; C] (get logits_train))
    by (rewrite <- Hx; apply is_tensor_self).
  assert (Hd : normalize_dim (length [T; N; C]) 2 = Ok 2) by reflexivity.
  assert (Hd0 : normalize_dim (length [T; N]) 0 = Ok 0) by reflexivity.
  destruct (softmax_spec 2 Hlogits Hd) as [p [Ep Hp0]].
  destruct (log_softmax_spec 2 Hlogits Hd) as [lp [Elp Hlp0]].
  assert (Hp : is_tensor p [T; N; C]
                 (fun idx => spec_probs logits_train C
                               (ix idx 0) (ix idx 1) (ix idx 2))).
  { apply is_tensor_ext with (1 := Hp0).
    intros idx Hin. index_cases idx Hin. reflexivity. }
  assert (Hlp : is_tensor lp [T; N; C]
                  (fun idx => spec_logprobs logits_train C
                                (ix idx 0) (ix idx 1) (ix idx 2))).
  { apply is_tensor_ext with (1 := Hlp0).
    intros idx Hin. index_cases idx Hin. reflexivity. }
  destruct (safe_cross_entropy_spec 2 Hideal Hlp Hd) as [nps [Enps Hnps0]].
  assert (Hnps : is_tensor nps [T; N]
                   (fun idx => spec_neglogp_per_step logits_train
                                 ideal_probs_train C (ix idx 0) (ix idx 1))).
  { apply is_tensor_ext with (1 := Hnps0).
    intros idx Hin. index_cases idx Hin. reflexivity. }
  destruct (bmap2_spec Rmult Hnps Hm) as [nprod [Enprod Hnprod]].
  destruct (tsum_spec 0 Hnprod Hd0) as [nl [Enl Hnl0]].
  assert (Hnl : is_tensor nl [N]
                  (fun idx => spec_neglogp logits_train ideal_probs_train
                                lengths T C (ix idx 0))).
  { apply is_tensor_ext with (1 := Hnl0).
    intros idx Hin. index_cases idx Hin. reflexivity. }
  destruct (safe_cross_entropy_spec 2 Hp Hlp Hd) as [eps [Eeps Heps0]].
  assert (Heps : is_tensor eps [T; N]
                   (fun idx => spec_entropy_per_step logits_train C
                                 (ix idx 0) (ix idx 1))).
  { apply is_tensor_ext with (1 := Heps0).
    intros idx Hin. index_cases idx Hin. reflexivity. }
  destruct (bmap2_spec Rmult Heps He) as [eprod [Eeprod Heprod]].
  destruct (tsum_spec 0 Heprod Hd0) as [en [Een Hen0]].
  assert (Hen : is_tensor en [N]
                  (fun idx => spec_entropy logits_train lengths gamma_decay
                                T C (ix idx 0))).
  { apply is_tensor_ext with (1 := Hen0).
    intros idx Hin. index_cases idx Hin. reflexivity. }
  exists m, e, p, lp, nps, nl, eps, en.
  split; [exact Hnl |]. split; [exact Hen |].
  intros R_train baseline entropy_weight.
  unfold loss_func_body. rewrite Hi; simpl bind.
  rewrite Em; simpl bind. rewrite Ee; simpl bind.
  rewrite Ep; simpl bind. rewrite Elp; simpl bind.
  rewrite Enps; simpl bind.
  unfold tmul at 1. change (@smul R R_Scalar) with Rmult.
  rewrite Enprod; simpl bind. rewrite Enl; simpl bind.
  destruct (tmul (tmap (fun r => (r - baseline)%R) R_train) nl)
    as [gprod | ex]; simpl bind; [| reflexivity].
  rewrite Eeps; simpl bind.
  unfold tmul. change (@smul R R_Scalar) with Rmult.
  rewrite Eeprod; simpl bind. rewrite Een; simpl bind.
  reflexivity.
Qed.

Lemma bmap2_left_singleton {A B C : Type} (f : A -> B -> C) (x : tensor A)
    (y : tensor B) (N : nat) (gy : list nat -> B) :
  shape x = [1] -> is_tensor y [N] gy ->
  exists r, bmap2 f x y = Ok r /\
            is_tensor r [N] (fun idx => f (get x [0]) (gy idx)).
Proof.
  intros Hx [Hy Hgy]. unfold bmap2. rewrite Hx, Hy.
  assert (Hb : broadcast_shapes [1] [N] = Ok [N]).
  { unfold broadcast_shapes; simpl. unfold bdim.
    destruct (Nat.eqb_spec 1 N) as [<- | _]; reflexivity. }
  rewrite Hb; simpl bind.
  eexists; split; [reflexivity |]. split; [reflexivity |].
  intros idx Hin; simpl get.
  rewrite (bindex_in_range _ _ Hin), (Hgy _ Hin).
  index_cases idx Hin. reflexivity.
Qed.



(** ** Which exception is raised *)



Lemma softmax_low_rank (x : tensor R) :
  rank x < 3 -> softmax x 2 = Raise DimOutOfRange.
Proof.
  unfold softmax, rank.
  destruct (shape x) as [| a [| b [| c s]]]; simpl; intros H;
    try reflexivity; lia.
Qed.

(** X16: the shape (T, N, C) is read from [ideal_probs_train] alone, and
    first: when that tensor is not of rank 3 the call raises the unpacking
    error, whatever the other arguments. *)
Theorem ideal_probs_rank_is_checked_first
    (logits_train ideal_probs_train R_train : tensor R) (baseline : R)
    (lengths : tensor Z) (gamma_decay entropy_weight : R) :
  rank ideal_probs_train <> 3 ->
  loss_func logits_train ideal_probs_train R_train baseline lengths
    gamma_decay entropy_weight = Raise UnpackError.
Proof.
  unfold rank, loss_func, loss_func_body. intros Hrank.
  destruct (shape ideal_probs_train) as [| a [| b [| c [| d s]]]];
    simpl in *; try reflexivity; lia.
Qed.

Lemma ideal_probs_rank_is_checked_first_witness :
  loss_func bc_logits (of_list1 0%R [1%R; 0%R]) bc_R 0 bc_lengths 1 0
  = Raise UnpackError.
Proof.
  apply (@ideal_probs_rank_is_checked_first bc_logits
           (of_list1 0%R [1%R; 0%R]) bc_R 0%R bc_lengths 1%R 0%R).
  unfold rank; simpl. lia.
Defined.



(** ** The guard of [safe_cross_entropy] on finite and on NaN entries *)

Lemma safe_term_finite (p : xreal) (r : R) :
  safe_term p (Fin r) = xmul p (Fin r).
Proof.
  rewrite safe_term_contribution. unfold contribution.
  destruct (xeqb p (Fin 0)) eqn:E; [| reflexivity].
  rewrite (xeqb_zero _ E). simpl. f_equal. lra.
Qed.

Lemma xadd_nan_r (x : xreal) : xadd x NaN = NaN.
Proof. destruct x; reflexivity. Qed.

Lemma sum_n_nan (n k : nat) (f : nat -> xreal) :
  k < n -> f k = NaN -> sum_n n f = NaN.
Proof.
  induction n as [| n IH]; intros Hk Hf; [lia |].
  cbn [sum_n sadd xreal_Scalar].
  destruct (Nat.eq_dec k n) as [-> | Hne].
  - rewrite Hf. apply xadd_nan_r.
  - rewrite IH by (auto; lia). reflexivity.
Qed.

(** X18: where every log-probability is finite the guard changes nothing:
    [safe_cross_entropy p logq dim] is then the plain cross-entropy, minus
    the sum along the axis of the products [p * logq], for any [p]. *)
Theorem guard_is_transparent_on_finite_logq
    (p logq : tensor xreal) (dim : Z) (d : nat) :
  shape logq = shape p ->
  normalize_dim (rank p) dim = Ok d ->
  (forall idx, in_range idx (shape p) -> exists r, get logq idx = Fin r) ->
  exists r,
    safe_cross_entropy p logq dim = Ok r /\
    forall idx, in_range idx (shape r) ->
      get r idx
      = xopp (sum_n (nth d (shape p) 0)
                (fun k => xmul (get p (insert_at d k idx))
                            (get logq (insert_at d k idx)))).
Proof.
  intros Hs Hd Hfin.
  assert (Hp : is_tensor p (shape p) (get p)) by apply is_tensor_self.
  assert (Hq : is_tensor logq (shape p) (get logq))
    by (rewrite <- Hs; apply is_tensor_self).
  destruct (safe_cross_entropy_spec dim Hp Hq Hd) as [r [Er [Hsr Hr]]].
  exists r. split; [exact Er |].
  intros idx Hin. rewrite Hsr in Hin. rewrite (Hr idx Hin). simpl. f_equal.
  apply sum_n_ext. intros k Hk.
  destruct (Hfin (insert_at d k idx)) as [q Hq'].
  - apply in_range_insert_at; assumption.
  - rewrite Hq'. apply safe_term_finite.
Qed.

Lemma guard_is_transparent_on_finite_logq_witness :
  exists r,
    safe_cross_entropy guard_p (of_list1 (Fin 0) [Fin 2; Fin 3]) (-1) = Ok r /\
    forall idx, in_range idx (shape r) ->
      get r idx
      = xopp (sum_n 2
                (fun k => xmul (get guard_p (insert_at 0 k idx))
                            (get (of_list1 (Fin 0) [Fin 2; Fin 3])
                               (insert_at 0 k idx)))).
Proof.
  apply (@guard_is_transparent_on_finite_logq guard_p
           (of_list1 (Fin 0) [Fin 2; Fin 3]) (-1)%Z 0).
  - reflexivity.
  - reflexivity.
  - intros idx Hin. destruct idx as [| i [| j idx]]; simpl in Hin;
      try (exfalso; tauto).
    destruct i as [| [| i]]; [exists 2%R | exists 3%R | exfalso; lia];
      reflexivity.
Defined.

(** X19: the guard covers the entries with [p == 0] only: a NaN
    log-probability at an entry whose [p] is not zero makes the whole sum
    along the axis NaN. *)
Theorem guard_does_not_cover_nonzero_entries
    (p logq : tensor xreal) (dim : Z) (d : nat) :
  shape logq = shape p ->
  normalize_dim (rank p) dim = Ok d ->
  exists r,
    safe_cross_entropy p logq dim = Ok r /\
    forall idx k, in_range idx (shape r) -> k < nth d (shape p) 0 ->
      xeqb (get p (insert_at d k idx)) (Fin 0) = false ->
      get logq (insert_at d k idx) = NaN ->
      get r idx = NaN.
Proof.
  intros Hs Hd.
  assert (Hp : is_tensor p (shape p) (get p)) by apply is_tensor_self.
  assert (Hq : is_tensor logq (shape p) (get logq))
    by (rewrite <- Hs; apply is_tensor_self).
  destruct (safe_cross_entropy_spec dim Hp Hq Hd) as [r [Er [Hsr Hr]]].
  exists r. split; [exact Er |].
  intros idx k Hin Hk Hnz Hnan. rewrite Hsr in Hin. rewrite (Hr idx Hin).
  rewrite (@sum_n_nan (nth d (shape p) 0) k); [reflexivity | exact Hk |].
  rewrite safe_term_contribution. unfold contribution.
  rewrite Hnz, Hnan. destruct (get p (insert_at d k idx)); reflexivity.
Qed.

Lemma guard_does_not_cover_nonzero_entries_witness :
  exists r,
    safe_cross_entropy guard_p (of_list1 NaN [NInf; NaN]) (-1) = Ok r /\
    forall idx k, in_range idx (shape r) -> k < 2 ->
      xeqb (get guard_p (insert_at 0 k idx)) (Fin 0) = false ->
      get (of_list1 NaN [NInf; NaN]) (insert_at 0 k idx) = NaN ->
      get r idx = NaN.
Proof.
  apply (@guard_does_not_cover_nonzero_entries guard_p
           (of_list1 NaN [NInf; NaN]) (-1)%Z 0).
  - reflexivity.
  - reflexivity.
Defined.

(** ** The log-likelihood of a sampled program *)


